(** * go-dbus: the connection engine of [dbus.go]

    A shallow embedding of [src/dbus.go]: the authentication handshake, the
    frame buffer, the receive/dispatch loop, the reply registry with the
    blocking send built on it, and the object/interface proxies.

    Conventions.
    - A Go [[]byte] is a [list byte]; a Go [string] is a [string].
    - An [os.Error] is represented by its message; [nil] is [None].
    - A pointer that may be [nil] is an [option].
    - The socket, the standard output, the channels and the variables
      captured by the callbacks are explicit components of the state.
    - The goroutines of one connection are run under the schedule in
      which the only caller is blocked in [_SendSync] while the receiver and
      the dispatcher work. The receiver touches the buffer and the reading
      side of the socket, the dispatcher the registry and what the
      callbacks touch, and the two meet on an unbuffered channel, so a turn
      of the one followed by a turn of the other stands for their
      interleavings. A bound on the turns of the background loop makes the
      wait a structural recursion; [Blocked] is a wait that is not over
      within the bound.
    - A turn of the dispatcher is taken whole. In the program the send
      [recvChan <- 0] releases the caller before the dispatcher deletes
      the entry of the call, so the registry the caller finds when
      [_SendSync] returns may still hold that entry; here the caller goes
      on when the turn is over. What a call returns, whether it returns
      and whether it faults do not depend on this. The statements about a
      call that has returned therefore leave the registry out.
    - The background loop runs from [go p._RunLoop()] on. [Initialize]
      lets it take its first turn when [_SendHello] waits; [Initialize_from]
      lets it take any number of turns before the Hello call is
      registered. *)

From Stdlib Require Import ZArith List String Ascii DecimalString Lia.
From Stdlib.Strings Require Import Byte.
From stdpp Require Import gmap strings list option.

Local Open Scope Z_scope.
Local Open Scope string_scope.

(** ** Errors, bytes and strings *)

(** [os.Error]: only the message of an error is observable. *)
Definition Error := string.

(** [os.NewError] *)
Definition NewError (s : string) : Error := s.

(** [strings.Bytes(s)] and [string(b)] *)
Definition Bytes (s : string) : list byte := list_byte_of_string s.
Definition string_of_bytes (b : list byte) : string := string_of_list_byte b.

Definition CR : ascii := ascii_of_nat 13.
Definition LF : ascii := ascii_of_nat 10.
Definition NUL : ascii := ascii_of_nat 0.
Definition CRLF : string := String CR (String LF EmptyString).

(** [make([]byte, n)]: [n] zero bytes. *)
Definition make_bytes (n : nat) : list byte := replicate n x00.

(** The result of a function that can end in a runtime fault, or whose
    wait for a reply is not over within the given number of steps of the
    background loop. *)
Inductive Outcome (A : Type) : Type :=
| Done (a : A)
| Panic
| Blocked.
Arguments Done {A} a.
Arguments Panic {A}.
Arguments Blocked {A}.

#[global] Instance Outcome_ret : MRet Outcome := fun _ a => Done a.
#[global] Instance Outcome_bind : MBind Outcome := fun _ _ k m =>
  match m with
  | Done a => k a
  | Panic => Panic
  | Blocked => Blocked
  end.

(** ** The transport: [net.Conn]

    [incoming] holds what the peer sends, in the pieces in which the reads
    receive it; after the last piece the stream is at its end. [writes]
    records the slices handed to [Write], in order, and [wfail] tells
    whether [Write] reports an error. *)
Record Conn := mkConn {
  incoming : list (list byte);
  writes : list (list byte);
  wfail : bool
}.

(** [conn.Read(b)] with [len(b) = k]: the bytes received and the error. *)
Definition conn_Read (k : nat) (c : Conn) : (list byte * option Error) * Conn :=
  match incoming c with
  | [] => (([], Some "EOF"), c)
  | piece :: rest =>
      let later := match drop k piece with
                   | [] => rest
                   | unread => unread :: rest
                   end in
      ((take k piece, None), mkConn later (writes c) (wfail c))
  end.

(** [conn.Write(b)] *)
Definition conn_Write (b : list byte) (c : Conn) : option Error * Conn :=
  (if wfail c then Some "write failed" else None,
   mkConn (incoming c) (writes c ++ [b]) (wfail c)).

(** ** Messages *)

Inductive MessageType := INVALID | METHOD_CALL | METHOD_RETURN | ERROR | SIGNAL.

(** A parameter of a message: a Go value of dynamic type. *)
Inductive Value :=
| VString (s : string)
| VInt (n : Z)
| VBool (b : bool).

(** Modelled from the spec: the struct [Message] is declared outside
    [dbus.go]; its fields are those [dbus.go] reads and writes, with the
    meaning the data model gives them. [Params] is a vector of values. *)
Record Message := mkMessage {
  Type_ : MessageType;
  Path : string;
  Intf : string;
  Dest : string;
  Member : string;
  Sig : string;
  serial : Z;
  replySerial : Z;
  Params : list Value
}.

(** The conversion [uint32(x)]. *)
Definition uint32 (x : Z) : Z := x mod 2 ^ 32.

(** The codec, declared outside [dbus.go]: [msg._Marshal()] gives the bytes
    and an error, [_Unmarshal(b)] gives the message, the number of bytes it
    took from [b] (a count) and an error. *)
Class Codec := {
  _Marshal : Message -> list byte * option Error;
  _Unmarshal : list byte -> option Message * nat * option Error
}.

(** The introspection data, declared outside [dbus.go]: three interface
    types and the functions [dbus.go] calls on them. An interface value
    may be [nil]. *)
Class IntrospectLib := {
  Introspect : Type;
  InterfaceData : Type;
  MethodData : Type;
  NewIntrospect : string -> option Introspect * option Error;
  GetInterfaceData : Introspect -> string -> option InterfaceData;
  GetMethodData : InterfaceData -> string -> option MethodData;
  GetInSignature : MethodData -> string
}.

(** What [fmt.Println] and [fmt.Printf("%#v\n", msg)] put on the standard
    output. *)
Inductive Printed :=
| PrintLn (items : list string)
| PrintMsg (m : Message).

(** ** Formatting and the pattern of the handshake *)

(** [fmt.Sprintf("%d", n)] *)
Definition Sprintf_d (n : N) : string := NilZero.string_of_uint (N.to_uint n).

Definition hex_digit (n : N) : ascii :=
  match String.get (N.to_nat n) "0123456789abcdef" with
  | Some c => c
  | None => "0"%char
  end.

(** [fmt.Sprintf("%x", s)]: two lower-case hexadecimal digits per byte. *)
Fixpoint Sprintf_x (s : string) : string :=
  match s with
  | EmptyString => EmptyString
  | String c s' =>
      let n := N_of_ascii c in
      String (hex_digit (n / 16)) (String (hex_digit (n mod 16)) (Sprintf_x s'))
  end.

(** The class [[0-9a-fA-F]]. *)
Definition is_hex (c : ascii) : bool :=
  let n := nat_of_ascii c in
  ((48 <=? n) && (n <=? 57) || (97 <=? n) && (n <=? 102)
   || (65 <=? n) && (n <=? 70))%nat.

(** The length of the longest run of hexadecimal digits [s] starts with. *)
Fixpoint hex_run (s : string) : nat :=
  match s with
  | EmptyString => 0%nat
  | String c s' => if is_hex c then S (hex_run s') else 0%nat
  end.

(** [re.ExecuteString(s)] for the expression [^OK ([0-9a-fA-F]+)]: [nil],
    or the bounds of the match followed by the bounds of its group. *)
Definition ExecuteString_OK (s : string) : option (list nat) :=
  if String.prefix "OK " s then
    match hex_run (String.substring 3 (String.length s - 3) s) with
    | O => None
    | k => Some [0; 3 + k; 3; 3 + k]%nat
    end
  else None.

(** The slice [s[i:j]] of a string. *)
Definition slice (s : string) (i j : nat) : string :=
  String.substring i (j - i) s.

(** What the one read of the handshake receives from the socket. *)
Definition response (c : Conn) : string :=
  string_of_bytes (fst (fst (conn_Read 1000 c))).

(** What the peer sends, from its first byte on, whatever the reads that
    receive it. *)
Definition peer_stream (c : Conn) : string :=
  string_of_bytes (List.concat (incoming c)).

(** The string [s] matches [OK <hex-guid>] with guid [g]: it starts with
    [OK ], then come the hexadecimal digits [g], at least one, and what
    follows does not start with a hexadecimal digit. *)
Definition OK_guid (s g : string) : Prop :=
  exists rest,
    s = "OK " +:+ g +:+ rest
    /\ g <> EmptyString
    /\ hex_run g = String.length g
    /\ hex_run rest = 0%nat.

(** The two lines [_Auth] first writes. *)
Definition auth_lines (uid : N) : list (list byte) :=
  [Bytes (String NUL EmptyString);
   Bytes ("AUTH EXTERNAL " +:+ Sprintf_x (Sprintf_d uid) +:+ CRLF)].

Section Engine.
Context `{Codec} `{IntrospectLib}.

(** ** The state outside the connection

    [stdout] is the standard output; [signalled] lists the channels on
    which a value waits for its receiver; [cells] holds the variables of
    type [Introspect] captured by callbacks (absent means [nil]); [fresh]
    names the next channel or variable; [lastSerial] is the serial counter
    of the messages; [uid] is what [os.Getuid()] returns. [delivered] is
    the record of the calls the dispatcher makes to registered functions:
    for each call, the key of the function and the message it is given. *)
Record World := mkWorld {
  stdout : list Printed;
  signalled : list nat;
  cells : gmap nat Introspect;
  fresh : nat;
  lastSerial : Z;
  uid : N;
  delivered : list (Z * Message)
}.

Definition print (l : list Printed) (w : World) : World :=
  mkWorld (stdout w ++ l) (signalled w) (cells w) (fresh w) (lastSerial w) (uid w)
          (delivered w).

(** [ch <- 0] from the dispatcher, [<-ch] in the caller. *)
Definition signal (ch : nat) (w : World) : World :=
  mkWorld (stdout w) (signalled w ++ [ch]) (cells w) (fresh w) (lastSerial w) (uid w)
          (delivered w).

Definition receive (ch : nat) (w : World) : World :=
  mkWorld (stdout w) (filter (fun c => c ≠ ch) (signalled w)) (cells w)
          (fresh w) (lastSerial w) (uid w) (delivered w).


(** A new channel ([make(chan int)]) or a new captured variable. *)
Definition alloc (w : World) : nat * World :=
  (fresh w,
   mkWorld (stdout w) (signalled w) (cells w) (S (fresh w)) (lastSerial w) (uid w)
           (delivered w)).

Definition set_lastSerial (n : Z) (w : World) : World :=
  mkWorld (stdout w) (signalled w) (cells w) (fresh w) n (uid w) (delivered w).

(** The dispatcher is about to call the function registered under [rs]. *)
Definition record_call (rs : Z) (m : Message) (w : World) : World :=
  mkWorld (stdout w) (signalled w) (cells w) (fresh w) (lastSerial w) (uid w)
          (delivered w ++ [(rs, m)]).

(** A registered function [func(msg *Message)]; [None] is a runtime fault
    inside it. The functions this file registers touch the world outside
    the connection only. *)
Abbreviation Reply := (Message -> World -> option World).

(** ** [type Connection struct] *)
Record Connection := mkConnection {
  path : string;
  uniqName : string;
  guid : string;
  methodCallReplies : gmap Z Reply;
  conn : Conn;
  buffer : list byte
}.

Definition set_guid (g : string) (p : Connection) : Connection :=
  mkConnection (path p) (uniqName p) g (methodCallReplies p) (conn p) (buffer p).
Definition set_methodCallReplies (m : gmap Z Reply) (p : Connection) : Connection :=
  mkConnection (path p) (uniqName p) (guid p) m (conn p) (buffer p).
Definition set_conn (c : Conn) (p : Connection) : Connection :=
  mkConnection (path p) (uniqName p) (guid p) (methodCallReplies p) c (buffer p).
Definition set_buffer (b : list byte) (p : Connection) : Connection :=
  mkConnection (path p) (uniqName p) (guid p) (methodCallReplies p) (conn p) b.

Definition State : Type := Connection * World.

(** ** The frame buffer *)

(** [func (p *Connection) _PopMessage()], returning a message and an error.
    [p.buffer.Read(make([]byte, n))] drops the next [n] bytes of the
    buffer, or all of them when it holds fewer. *)
Definition _PopMessage (p : Connection) : (option Message * option Error) * Connection :=
  match _Unmarshal (buffer p) with
  | (_, _, Some err) => ((None, Some err), p)
  | (msg, n, None) => ((msg, None), set_buffer (drop n (buffer p)) p)
  end.

(** [func (p *Connection) _UpdateBuffer() os.Error] *)
Definition _UpdateBuffer (p : Connection) : option Error * Connection :=
  let '((data, e), c) := conn_Read 4096 (conn p) in
  (e, set_buffer (buffer p ++ data) (set_conn c p)).

(** ** The dispatcher *)

(** [func (p *Connection) _MessageDispatch(msg *Message)] *)
Definition _MessageDispatch (msg : option Message) (s : State) : Outcome State :=
  let '(p, w) := s in
  match msg with
  | None => Done s
  | Some m =>
      match Type_ m with
      | METHOD_RETURN =>
          let rs := replySerial m in
          match methodCallReplies p !! rs with
          | Some replyFunc =>
              match replyFunc m (record_call rs m w) with
              | Some w' =>
                  Done (set_methodCallReplies (delete rs (methodCallReplies p)) p, w')
              | None => Panic
              end
          | None => Done s
          end
      | ERROR => Done (p, print [PrintLn ["ERROR"]; PrintMsg m] w)
      | _ => Done s
      end
  end.

(** What one turn of the loop of [_MessageReceiver] does: it sends a
    message on [msgChan], or it reads from the socket. *)
Inductive Turn :=
| Sent (msg : option Message)
| Refilled (e_pop : Error) (e_read : option Error).

(** One turn of [func (p *Connection) _MessageReceiver(msgChan chan *Message)]. *)
Definition _MessageReceiver_turn (p : Connection) : Turn * Connection :=
  match _PopMessage p with
  | ((msg, None), p') => (Sent msg, p')
  | ((_, Some e), p') =>
      let '(e', p'') := _UpdateBuffer p' in (Refilled e e', p'')
  end.

(** One turn of the receiver together with the turn of [_RunLoop] that
    takes the message from [msgChan] and dispatches it. *)
Definition _RunLoop_turn (s : State) : Outcome State :=
  let '(p, w) := s in
  match _MessageReceiver_turn p with
  | (Sent msg, p') => _MessageDispatch msg (p', w)
  | (Refilled _ _, p') => Done (p', w)
  end.

(** ** The handshake *)

(** [func (p *Connection) _Auth() os.Error] *)
Definition _Auth (s : State) : option Error * State :=
  let '(p, w) := s in
  let '(_, c) := conn_Write (Bytes (String NUL EmptyString)) (conn p) in
  let '(_, c) :=
    conn_Write (Bytes ("AUTH EXTERNAL " +:+ Sprintf_x (Sprintf_d (uid w)) +:+ CRLF)) c in
  let '((data, _), c) := conn_Read 1000 c in
  let b := (data ++ make_bytes (1000 - List.length data))%list in
  let retstr := string_of_bytes b in
  match ExecuteString_OK retstr with
  | Some m =>
      let guid := slice retstr (nth 2 m 0%nat) (nth 3 m 0%nat) in
      let '(_, c) := conn_Write (Bytes ("BEGIN" +:+ CRLF)) c in
      (None, (set_guid guid (set_conn c p), w))
  | None => (Some (NewError "Auth Failed"), (set_conn c p, w))
  end.

(** ** Sending and waiting *)

(** Modelled from the spec: [NewMessage] is defined outside [dbus.go]. It
    gives a message with no parameters and the next serial: serials are
    assigned monotonically from one counter. *)
Definition NewMessage (w : World) : Message * World :=
  let n := lastSerial w + 1 in
  (mkMessage INVALID "" "" "" "" "" n 0 [], set_lastSerial n w).

(** The function [_SendSync] registers: the callback, then [recvChan <- 0]. *)
Definition replyFunc_of (callback : Reply) (recvChan : nat) : Reply :=
  fun rmsg w =>
    match callback rmsg w with
    | Some w' => Some (signal recvChan w')
    | None => None
    end.

(** The first part of [_SendSync], up to the write to the socket; it gives
    the channel the caller then waits on. *)
Definition _SendSync_post (msg : Message) (callback : Reply) (s : State) : nat * State :=
  let '(p, w) := s in
  let seri := uint32 (serial msg) in
  let '(recvChan, w) := alloc w in
  let p := set_methodCallReplies
             (<[seri := replyFunc_of callback recvChan]> (methodCallReplies p)) p in
  let '(buff, _) := _Marshal msg in
  let '(_, c) := conn_Write buff (conn p) in
  (recvChan, (set_conn c p, w)).

(** [<-recvChan]: the caller sleeps until the dispatcher has sent on the
    channel; meanwhile the background loop takes its turns. The caller is
    woken between two turns, that is, after the dispatcher has also deleted
    the entry of the call; in the program it can be woken before that
    deletion. The result of the wait, that it ends and that it does not
    fault are the same under both. *)
Fixpoint await (fuel : nat) (recvChan : nat) (s : State) : Outcome State :=
  let '(p, w) := s in
  if decide (recvChan ∈ signalled w) then Done (p, receive recvChan w)
  else
    match fuel with
    | O => Blocked
    | S fuel' => s' ← _RunLoop_turn s; await fuel' recvChan s'
    end.

(** [func (p *Connection) _SendSync(msg, callback) os.Error] *)
Definition _SendSync (fuel : nat) (msg : Message) (callback : Reply) (s : State)
  : Outcome (option Error * State) :=
  let '(recvChan, s) := _SendSync_post msg callback s in
  s ← await fuel recvChan s;
  Done (None, s).

Definition set_call (t : MessageType) (path' intf dest member sig : string)
    (msg : Message) : Message :=
  mkMessage t path' intf dest member sig (serial msg) (replySerial msg) (Params msg).

(** [func (p *Connection) _SendHello() os.Error]. The field [Sig] stays
    as [NewMessage] set it. *)
Definition _SendHello (fuel : nat) (s : State) : Outcome (option Error * State) :=
  let '(p, w) := s in
  let '(msg, w) := NewMessage w in
  let msg := set_call METHOD_CALL "/org/freedesktop/DBus" "org.freedesktop.DBus"
               "org.freedesktop.DBus" "Hello" (Sig msg) msg in
  '(_, s) ← _SendSync fuel msg
        (fun reply w => Some (print [PrintLn ["send hello success"]] w)) (p, w);
  Done (None, s).

(** ** Objects and interfaces *)

(** [type Object struct] *)
Record Object := mkObject {
  obj_dest : string;
  obj_path : string;
  obj_intro : option Introspect
}.

(** [type Interface struct] *)
Record Interface := mkInterface {
  intf_obj : option Object;
  intf_name : string;
  intf_intro : option InterfaceData
}.



(** [func (p *Connection) Interface(obj *Object, name string) *Interface] *)
Definition Connection_Interface (obj : option Object) (name : string) : option Interface :=
  match obj with
  | None => None
  | Some o =>
      match obj_intro o with
      | None => None
      | Some i =>
          match GetInterfaceData i name with
          | None => None
          | Some data => Some (mkInterface (Some o) name (Some data))
          end
      end
  end.

(** [func (p *Connection) CallMethod(intf Interface, name string, args ...) os.Error].
    An argument that is [nil] is [None]. A method called on a [nil]
    interface value and a field read through a [nil] pointer are faults. *)
Definition CallMethod (fuel : nat) (intf : Interface) (name : string)
    (args : list (option Value)) (s : State) : Outcome (option Error * State) :=
  let '(p, w) := s in
  match intf_intro intf with
  | None => Panic
  | Some data =>
      match GetMethodData data name with
      | None => Done (Some (NewError "Invalid Method"), s)
      | Some method =>
          let '(msg, w) := NewMessage w in
          let params := (Params msg ++ omap id args)%list in
          match intf_obj intf with
          | None => Panic
          | Some o =>
              let msg := mkMessage METHOD_CALL (obj_path o) (intf_name intf)
                           (obj_dest o) name (GetInSignature method)
                           (serial msg) (replySerial msg) params in
              '(_, s) ← _SendSync fuel msg
                    (fun reply w => Some (print [PrintLn ["Method Call Comp:"; name]] w))
                    (p, w);
              Done (None, s)
          end
      end
  end.


(** ** Start of a connection *)

(** [func (p *Connection) Initialize() os.Error]. [go p._RunLoop()] starts
    the background loop, whose turns are taken while [_SendHello] waits. *)
Definition Initialize (fuel : nat) (s : State) : Outcome (option Error * State) :=
  let '(p, w) := s in
  let p := set_methodCallReplies ∅ p in
  let p := set_buffer [] p in
  let '(_, s) := _Auth (p, w) in
  '(_, s) ← _SendHello fuel s;
  Done (None, s).

(** [n] turns of the background loop. *)
Fixpoint _RunLoop_turns (n : nat) (s : State) : Outcome State :=
  match n with
  | O => Done s
  | S n' => s' ← _RunLoop_turn s; _RunLoop_turns n' s'
  end.

(** [Initialize] under the schedules in which the background loop, started
    by [go p._RunLoop()], takes [early] turns before [_SendHello] has
    registered its function; [Initialize] above is the schedule in which
    it takes none. *)
Definition Initialize_from (early fuel : nat) (s : State)
  : Outcome (option Error * State) :=
  let '(p, w) := s in
  let p := set_methodCallReplies ∅ p in
  let p := set_buffer [] p in
  let '(_, s) := _Auth (p, w) in
  s ← _RunLoop_turns early s;
  '(_, s) ← _SendHello fuel s;
  Done (None, s).


(** ** Notions used to state the properties *)

(** Frames handed to the dispatcher one after the other. *)
Fixpoint dispatch_frames (frames : list Message) (s : State) : Outcome State :=
  match frames with
  | [] => Done s
  | m :: rest => s' ← _MessageDispatch (Some m) s; dispatch_frames rest s'
  end.

(** Every key of the registry is a serial already given out, and the
    counter has not reached the end of the 32-bit range. *)
Definition serials_given (p : Connection) (w : World) : Prop :=
  0 <= lastSerial w < 2 ^ 32 - 1
  /\ forall k, is_Some (methodCallReplies p !! k) -> 0 <= k <= lastSerial w.

(** The message [CallMethod] builds. *)
Definition call_message (intf : Interface) (o : Object) (name : string)
    (method : MethodData) (args : list (option Value)) (w : World) : Message :=
  let msg := fst (NewMessage w) in
  mkMessage METHOD_CALL (obj_path o) (intf_name intf) (obj_dest o) name
            (GetInSignature method) (serial msg) (replySerial msg)
            (Params msg ++ omap id args)%list.

Definition call_callback (name : string) : Reply :=
  fun reply w => Some (print [PrintLn ["Method Call Comp:"; name]] w).

(** Two worlds that differ in the standard output at most. *)
Definition same_but_stdout (w1 w2 : World) : Prop :=
  signalled w1 = signalled w2 /\ cells w1 = cells w2 /\ fresh w1 = fresh w2
  /\ lastSerial w1 = lastSerial w2 /\ uid w1 = uid w2
  /\ delivered w1 = delivered w2.



(** ** The byte stream and the receiver left to itself *)

(** The bytes still to be decoded: those in the buffer, then those the
    socket will deliver. *)
Definition pending (p : Connection) : list byte :=
  (buffer p ++ List.concat (incoming (conn p)))%list.

(** The reads the pieces of the socket still need, at least. *)
Definition reads_left (pieces : list (list byte)) : nat :=
  List.length pieces + List.length (List.concat pieces).

(** [fuel] turns of the loop of [_MessageReceiver]: what it sends on
    [msgChan], in order. *)
Fixpoint receiver_run (fuel : nat) (p : Connection) : list (option Message) * Connection :=
  match fuel with
  | O => ([], p)
  | S fuel' =>
      match _MessageReceiver_turn p with
      | (Sent msg, p') =>
          let '(sent, p'') := receiver_run fuel' p' in (msg :: sent, p'')
      | (Refilled _ _, p') => receiver_run fuel' p'
      end
  end.

(** The frames the codec finds at the front of a stream taken as a whole,
    one after the other, and the bytes behind the last of them. *)
Fixpoint frames_of (fuel : nat) (stream : list byte) : list (option Message) * list byte :=
  match fuel with
  | O => ([], stream)
  | S fuel' =>
      match _Unmarshal stream with
      | (msg, n, None) =>
          let '(frames, rest) := frames_of fuel' (drop n stream) in
          (msg :: frames, rest)
      | (_, _, Some _) => ([], stream)
      end
  end.

(** A codec that frames: a frame it decodes takes at least one byte and at
    most the bytes it was given, and it decodes the same frame when more
    bytes follow. *)
Definition framing : Prop :=
  (forall b msg n, _Unmarshal b = (msg, n, None) ->
     (0 < n <= List.length b)%nat)
  /\ (forall b more msg n, _Unmarshal b = (msg, n, None) ->
     _Unmarshal (b ++ more)%list = (msg, n, None)).

(** A frame that answers no outstanding call of the registry [reg]. *)
Definition unanswering (reg : gmap Z Reply) (m : Message) : Prop :=
  Type_ m <> METHOD_RETURN \/ reg !! replySerial m = None.


(** What the dispatcher prints for a frame. *)
Definition printed_for (m : Message) : list Printed :=
  match Type_ m with
  | ERROR => [PrintLn ["ERROR"]; PrintMsg m]
  | _ => []
  end.

(** A callback that always returns. *)
Definition returning (cb : Reply) : Prop :=
  forall m w, is_Some (cb m w).

End Engine.

Abbreviation Reply := (Message -> World -> option World).


(** ** A fixture: a small wire format and a small introspection library

    A frame is a tag, a serial, the kind of its parameter, the length of
    the payload and the payload. Tags 1 to 4 are the four message types;
    any other tag makes the frame malformed. *)
Module Fixture.

Definition byte_of_Z (z : Z) : byte :=
  match Byte.of_nat (Z.to_nat (z mod 256)) with
  | Some b => b
  | None => x00
  end.

Definition Z_of_byte (b : byte) : Z := Z.of_nat (Byte.to_nat b).

Definition type_of_tag (b : byte) : option MessageType :=
  match Byte.to_nat b with
  | 1%nat => Some METHOD_CALL
  | 2%nat => Some METHOD_RETURN
  | 3%nat => Some ERROR
  | 4%nat => Some SIGNAL
  | _ => None
  end.

Definition tag_of_type (t : MessageType) : byte :=
  match t with
  | INVALID => x00
  | METHOD_CALL => x01
  | METHOD_RETURN => x02
  | ERROR => x03
  | SIGNAL => x04
  end.

Definition unmarshal (b : list byte) : option Message * nat * option Error :=
  match b with
  | tag :: rs :: kind :: plen :: rest =>
      match type_of_tag tag with
      | None => (None, 0%nat, Some "malformed")
      | Some t =>
          let n := Byte.to_nat plen in
          if (n <=? List.length rest)%nat then
            let payload := string_of_bytes (take n rest) in
            let params :=
              match Byte.to_nat kind with
              | 0%nat => []
              | 1%nat => [VString payload]
              | _ => [VInt (Z.of_nat n)]
              end in
            (Some (mkMessage t "" "" "" "" "" 0 (Z_of_byte rs) params),
             (4 + n)%nat, None)
          else (None, 0%nat, Some "incomplete")
      end
  | tag :: _ =>
      match type_of_tag tag with
      | None => (None, 0%nat, Some "malformed")
      | Some _ => (None, 0%nat, Some "incomplete")
      end
  | [] => (None, 0%nat, Some "incomplete")
  end.

(** A message with an empty path cannot be encoded. *)
Definition marshal (m : Message) : list byte * option Error :=
  if decide (Path m = "") then ([], Some "marshal: empty path")
  else ([tag_of_type (Type_ m); byte_of_Z (serial m); x00; x00], None).

Definition codec : Codec := {| _Marshal := marshal; _Unmarshal := unmarshal |}.

(** Introspection data: the interfaces, each with its methods and their
    input signatures. The text [echo] describes one interface; the empty
    text does not parse; any other text describes no interface. *)
Definition parse (v : string) : option (list (string * list (string * string))) * option Error :=
  if decide (v = "") then (None, Some "introspect: no data")
  else if decide (v = "echo") then (Some [("com.example.Echo", [("Ping", "s")])], None)
  else (Some [], None).

Definition assoc {A} (k : string) (l : list (string * A)) : option A :=
  snd <$> List.find (fun kv => bool_decide (fst kv = k)) l.

Definition introspectLib : IntrospectLib := {|
  Introspect := list (string * list (string * string));
  InterfaceData := list (string * string);
  MethodData := string;
  NewIntrospect := parse;
  GetInterfaceData := fun i name => assoc name i;
  GetMethodData := fun d name => assoc name d;
  GetInSignature := fun m => m
|}.

End Fixture.

(** ** States of the fixture *)

Section FixtureStates.
#[local] Existing Instance Fixture.codec.
#[local] Existing Instance Fixture.introspectLib.

Definition world0 : World := mkWorld [] [] ∅ 0 0 1000 [].

Definition connection0 (pieces : list (list byte)) : Connection :=
  mkConnection "unix:path=/var/run/dbus/system_bus_socket" "" "" ∅
               (mkConn pieces [] false) [].

(** A MethodReturn frame for serial 1 with no parameter, and one whose
    parameter is a number. *)
Definition reply_empty : list byte := [x02; x01; x00; x00].
Definition reply_number : list byte := [x02; x01; x02; x00].


Definition ok_line : string := "OK 1234abcd" +:+ CRLF.
Definition rejected_line : string := "REJECTED EXTERNAL" +:+ CRLF.

(** A line in which other characters follow the hexadecimal digits. *)
Definition ok_junk_line : string := "OK 12zz" +:+ CRLF.

Definition hello_printer : Reply :=
  fun reply w => Some (print [PrintLn ["send hello success"]] w).

Definition return_for (rs : Z) : Message :=
  mkMessage METHOD_RETURN "" "" "" "" "" 0 rs [].

Definition connection_waiting : Connection :=
  set_methodCallReplies {[7 := hello_printer]} (connection0 []).

(** A buffer that holds one frame and a byte of the next, and a buffer
    that holds the start of a frame. *)
Definition connection_framed : Connection :=
  set_buffer [x02; x07; x01; x02; x68; x69; x03] (connection0 []).
Definition connection_partial : Connection :=
  set_buffer [x02; x07; x01; x05; x68] (connection0 []).

(** A buffer that holds a frame with an unknown tag, while a good frame
    waits on the socket. *)
Definition connection_malformed : Connection :=
  set_buffer [xff; x00; x00; x00] (connection0 [reply_empty]).

(** A connection with the call of serial 1 outstanding. *)
Definition connection_one_out : Connection :=
  set_methodCallReplies {[1 := hello_printer]} (connection0 []).
Definition world_one_out : World := set_lastSerial 1 world0.

(** The world after [2^32] serials have been given out. *)
Definition world_wrapped : World := set_lastSerial (2 ^ 32) world0.

(** An interface with its data, on an object whose path cannot be encoded,
    and a connection whose writes fail. *)
Definition object_unnamed : Object :=
  mkObject "com.example" "" (Some [("com.example.Echo", [("Ping", "s")])]).
Definition interface_echo : Interface :=
  mkInterface (Some object_unnamed) "com.example.Echo" (Some [("Ping", "s")]).
Definition connection_broken : Connection :=
  set_conn (mkConn [reply_empty] [] true) (connection0 []).

(** Frames that answer no call of [connection_waiting]. *)
Definition error_for (rs : Z) : Message :=
  mkMessage ERROR "" "" "" "" "" 0 rs [].
Definition signal_frame : Message :=
  mkMessage SIGNAL "/obj" "com.example.Echo" "" "Changed" "" 3 0 [].

(** A connection with the calls of serials 1 and 2 outstanding. *)
Definition connection_two_out : Connection :=
  set_methodCallReplies (<[2 := hello_printer]> {[1 := hello_printer]}) (connection0 []).

(** A call message with serial 5, and one whose serial is [2^32] more. *)
Definition call_five : Message :=
  mkMessage METHOD_CALL "/obj" "com.example.Echo" "com.example" "Ping" "s" 5 0 [].
Definition call_five_wrapped : Message :=
  mkMessage METHOD_CALL "/obj" "com.example.Echo" "com.example" "Ping" "s"
            (5 + 2 ^ 32) 0 [].
Definition call_one : Message :=
  mkMessage METHOD_CALL "/obj" "com.example.Echo" "com.example" "Ping" "s" 1 0 [].

(** Two frames and the first byte of a third, once in one piece and once
    with three bytes buffered and the others arriving one by one. *)
Definition stream_bytes : list byte :=
  [x02; x01; x01; x02; x68; x69; x03; x01; x00; x00; x02].
Definition connection_whole : Connection := connection0 [stream_bytes].
Definition connection_bytewise : Connection :=
  set_buffer (take 3 stream_bytes)
             (connection0 ((fun b => [b]) <$> drop 3 stream_bytes)).

End FixtureStates.

(** * Properties *)

Section Properties.
Context `{Codec} `{IntrospectLib}.

(** ** The dispatcher and the reply registry *)

Lemma dispatch_keeps_absent (m : option Message) (p p' : Connection) (w w' : World) (k : Z) :
  _MessageDispatch m (p, w) = Done (p', w') ->
  methodCallReplies p !! k = None ->
  methodCallReplies p' !! k = None.
Proof.
  intros Hd Hk. unfold _MessageDispatch in Hd.
  destruct m as [m|]; [|congruence].
  destruct (Type_ m); try congruence.
  destruct (methodCallReplies p !! replySerial m) as [f|] eqn:Hf; [|congruence].
  destruct (f m _); [|discriminate].
  injection Hd as <- <-. simpl.
  destruct (decide (replySerial m = k)) as [->|Hne].
  - apply lookup_delete_eq.
  - by rewrite lookup_delete_ne.
Qed.

Lemma dispatch_frames_keep_absent (frames : list Message) (p p' : Connection)
    (w w' : World) (k : Z) :
  dispatch_frames frames (p, w) = Done (p', w') ->
  methodCallReplies p !! k = None ->
  methodCallReplies p' !! k = None.
Proof.
  revert p w. induction frames as [|m rest IH]; intros p w Hd Hk;
    cbn [dispatch_frames] in Hd.
  - congruence.
  - destruct (_MessageDispatch (Some m) (p, w)) as [[p1 w1]| |] eqn:Hm;
      cbn [mbind Outcome_bind] in Hd; try discriminate.
    eapply IH; [exact Hd|]. eapply dispatch_keeps_absent; eauto.
Qed.

Lemma dispatch_unregistered (msg : Message) (p : Connection) (w : World) :
  Type_ msg = METHOD_RETURN ->
  methodCallReplies p !! replySerial msg = None ->
  _MessageDispatch (Some msg) (p, w) = Done (p, w).
Proof. intros Ht Hk. unfold _MessageDispatch. rewrite Ht. cbv zeta. by rewrite Hk. Qed.

(** C1. A MethodReturn frame whose replySerial is registered makes the
    dispatcher call the registered function on the frame, once (the record
    of the calls grows by this one call), and remove the entry, leaving the
    other entries alone; whatever frames are dispatched next, a later
    MethodReturn frame with the same replySerial finds no entry and changes
    nothing. A MethodReturn frame whose replySerial is not registered
    changes nothing, the registry included. *)
Theorem dispatch_method_return (p : Connection) (w : World) (msg : Message) :
  Type_ msg = METHOD_RETURN ->
  (forall (replyFunc : Reply) (w' : World),
      methodCallReplies p !! replySerial msg = Some replyFunc ->
      replyFunc msg (record_call (replySerial msg) msg w) = Some w' ->
      let p' := set_methodCallReplies
                  (delete (replySerial msg) (methodCallReplies p)) p in
      _MessageDispatch (Some msg) (p, w) = Done (p', w')
      /\ delivered (record_call (replySerial msg) msg w)
           = (delivered w ++ [(replySerial msg, msg)])%list
      /\ methodCallReplies p' !! replySerial msg = None
      /\ (forall k, k <> replySerial msg ->
            methodCallReplies p' !! k = methodCallReplies p !! k)
      /\ (forall (frames : list Message) (p2 : Connection) (w2 : World)
                 (again : Message),
            dispatch_frames frames (p', w') = Done (p2, w2) ->
            Type_ again = METHOD_RETURN ->
            replySerial again = replySerial msg ->
            _MessageDispatch (Some again) (p2, w2) = Done (p2, w2)))
  /\ (methodCallReplies p !! replySerial msg = None ->
      _MessageDispatch (Some msg) (p, w) = Done (p, w)).
Proof.
  intros Ht. split.
  - intros f w' Hf Hw p'. repeat split.
    + unfold _MessageDispatch. rewrite Ht. cbv zeta. by rewrite Hf, Hw.
    + apply lookup_delete_eq.
    + intros k Hk. simpl. by rewrite lookup_delete_ne.
    + intros frames p2 w2 again Hd Ht2 Hrs.
      apply dispatch_unregistered; [done|]. rewrite Hrs.
      eapply dispatch_frames_keep_absent; [exact Hd|].
      apply lookup_delete_eq.
  - by apply dispatch_unregistered.
Qed.

(** ** The frame buffer *)

(** C2. When the codec gives a frame and reports [n] bytes taken, [n] being
    at most the length of the buffer, [_PopMessage] returns that frame and
    removes the first [n] bytes of the buffer, no more and no less; when the
    codec reports an error, as it does for an incomplete frame,
    [_PopMessage] returns no frame and the connection, its buffer included,
    is unchanged. *)
Theorem PopMessage_buffer (p : Connection) :
  (forall (msg : option Message) (n : nat),
      _Unmarshal (buffer p) = (msg, n, None) ->
      (n <= List.length (buffer p))%nat ->
      exists front rest,
        _PopMessage p = ((msg, None), set_buffer rest p)
        /\ buffer p = (front ++ rest)%list
        /\ List.length front = n
        /\ List.length rest = (List.length (buffer p) - n)%nat)
  /\ (forall (msg : option Message) (n : nat) (e : Error),
      _Unmarshal (buffer p) = (msg, n, Some e) ->
      _PopMessage p = ((None, Some e), p)).
Proof.
  split.
  - intros msg n Hu Hn. exists (take n (buffer p)), (drop n (buffer p)).
    unfold _PopMessage. rewrite Hu. repeat split.
    + by rewrite take_drop.
    + rewrite length_take. lia.
    + by rewrite length_drop.
  - intros msg n e Hu. unfold _PopMessage. by rewrite Hu.
Qed.

End Properties.

(** ** Strings of the handshake *)

Lemma append_nil (b : string) : EmptyString +:+ b = b.
Proof. reflexivity. Qed.

Lemma append_cons (c : ascii) (a b : string) : String c a +:+ b = String c (a +:+ b).
Proof. reflexivity. Qed.

Ltac unfold_append := rewrite ?append_nil, ?append_cons.

Lemma string_of_bytes_app (a b : list byte) :
  string_of_bytes (a ++ b)%list = string_of_bytes a +:+ string_of_bytes b.
Proof.
  unfold string_of_bytes, string_of_list_byte.
  induction a as [|x a IH]; simpl; unfold_append; [done|]. by rewrite IH.
Qed.

Lemma string_app_assoc (a b c : string) : (a +:+ b) +:+ c = a +:+ (b +:+ c).
Proof. induction a as [|x a IH]; unfold_append; [done|]. by rewrite IH. Qed.

Lemma string_app_nil_r (a : string) : a +:+ EmptyString = a.
Proof. induction a as [|x a IH]; unfold_append; [done|]. by rewrite IH. Qed.

Lemma string_length_app (a b : string) :
  String.length (a +:+ b) = (String.length a + String.length b)%nat.
Proof. induction a as [|x a IH]; unfold_append; simpl; [done|]. by rewrite IH. Qed.

Lemma substring_all (s : string) (m : nat) :
  (String.length s <= m)%nat -> String.substring 0 m s = s.
Proof.
  revert m. induction s as [|c s IH]; intros [|m] Hm; simpl in *; try done; try lia.
  rewrite IH; [done|lia].
Qed.

Lemma substring_app_l (a b : string) :
  String.substring 0 (String.length a) (a +:+ b) = a.
Proof. induction a as [|x a IH]; unfold_append; simpl; [by destruct b|]. by rewrite IH. Qed.

(** The run of hexadecimal digits of [g +:+ rest] is [g] when [g] is made
    of such digits and [rest] does not start with one. *)
Lemma hex_run_app (g rest : string) :
  hex_run g = String.length g -> hex_run rest = 0%nat ->
  hex_run (g +:+ rest) = String.length g.
Proof.
  induction g as [|c g IH]; unfold_append; simpl; intros Hg Hr; [done|].
  destruct (is_hex c); [|discriminate]. f_equal. apply IH; [lia|done].
Qed.

(** Every string splits into its run of hexadecimal digits and a rest that
    does not start with one. *)
Lemma hex_run_split (s : string) :
  exists g rest,
    s = g +:+ rest /\ String.length g = hex_run s
    /\ hex_run g = String.length g /\ hex_run rest = 0%nat.
Proof.
  induction s as [|c s (g & rest & Hs & Hl & Hg & Hr)].
  - by exists EmptyString, EmptyString.
  - simpl. destruct (is_hex c) eqn:Hc.
    + exists (String c g), rest. unfold_append. simpl. rewrite Hc, Hg, <- Hs, Hl. done.
    + exists EmptyString, (String c s). unfold_append. simpl. by rewrite Hc.
Qed.

(** Zero bytes after a string do not lengthen its run. *)
Lemma hex_run_zeros (s : string) (k : nat) :
  hex_run (s +:+ string_of_bytes (make_bytes k)) = hex_run s.
Proof.
  induction s as [|c s IH]; unfold_append; simpl.
  - by destruct k.
  - by rewrite IH.
Qed.

#[local] Arguments ascii_dec : simpl never.

Ltac case_ascii_dec :=
  match goal with
  | |- context [ascii_dec ?a ?b] => destruct (ascii_dec a b); try subst b
  end.

Lemma prefix_OK (s : string) :
  String.prefix "OK " s = true <-> exists t, s = "OK " +:+ t.
Proof.
  split.
  - destruct s as [|c1 [|c2 [|c3 t]]]; simpl; repeat case_ascii_dec;
      try discriminate.
    intros _. by exists t.
  - intros [t ->]. unfold_append. simpl. repeat case_ascii_dec; try done.
    by destruct t.
Qed.

Lemma prefix_OK_zeros (s : string) (k : nat) :
  String.prefix "OK " (s +:+ string_of_bytes (make_bytes k)) = String.prefix "OK " s.
Proof.
  destruct s as [|c1 [|c2 [|c3 t]]]; unfold_append; simpl;
    repeat case_ascii_dec; try done; try (by destruct k).
  by destruct (t +:+ string_of_bytes (make_bytes k)), t.
Qed.

(** The matcher on a string that starts with [OK ], and on one that does
    not. *)
Lemma ExecuteString_OK_prefixed (t : string) :
  ExecuteString_OK ("OK " +:+ t) =
  match hex_run t with
  | O => None
  | k => Some [0; 3 + k; 3; 3 + k]%nat
  end.
Proof.
  unfold ExecuteString_OK.
  replace (String.prefix "OK " ("OK " +:+ t)) with true
    by (symmetry; apply prefix_OK; eauto).
  change ("OK " +:+ t) with (String "O" (String "K" (String " " t))).
  change (String.substring 3 ?m (String "O" (String "K" (String " " t))))
    with (String.substring 0 m t).
  rewrite substring_all; [done|]. simpl. lia.
Qed.

Lemma ExecuteString_OK_unprefixed (s : string) :
  String.prefix "OK " s = false -> ExecuteString_OK s = None.
Proof. intros Hp. unfold ExecuteString_OK. by rewrite Hp. Qed.

Lemma slice_guid (g rest : string) :
  slice ("OK " +:+ g +:+ rest) 3 (3 + String.length g) = g.
Proof.
  unfold slice.
  change ("OK " +:+ g +:+ rest) with (String "O" (String "K" (String " " (g +:+ rest)))).
  change (String.substring 3 ?m (String "O" (String "K" (String " " ?t))))
    with (String.substring 0 m t).
  replace (3 + String.length g - 3)%nat with (String.length g) by lia.
  apply substring_app_l.
Qed.

(** What the matcher answers on a string that matches, and on one that
    does not. *)
Lemma ExecuteString_OK_match (s g : string) :
  OK_guid s g ->
  ExecuteString_OK s = Some [0; 3 + String.length g; 3; 3 + String.length g]%nat
  /\ slice s 3 (3 + String.length g) = g.
Proof.
  intros (rest & -> & Hne & Hg & Hr). split; [|apply slice_guid].
  rewrite ExecuteString_OK_prefixed, hex_run_app by done.
  by destruct g.
Qed.

Lemma ExecuteString_OK_some (s : string) (m : list nat) :
  ExecuteString_OK s = Some m -> exists g, OK_guid s g.
Proof.
  intros Hs. destruct (String.prefix "OK " s) eqn:Hp.
  - apply prefix_OK in Hp as [t ->]. rewrite ExecuteString_OK_prefixed in Hs.
    destruct (hex_run_split t) as (g & rest & Ht & Hl & Hg & Hr).
    exists g, rest. rewrite Ht. repeat split; try done.
    intros ->. simpl in Hl. by rewrite <- Hl in Hs.
  - by rewrite ExecuteString_OK_unprefixed in Hs.
Qed.

Lemma ExecuteString_OK_no_match (s : string) :
  (forall g, ~ OK_guid s g) -> ExecuteString_OK s = None.
Proof.
  intros Hno. destruct (ExecuteString_OK s) as [m|] eqn:Hs; [|done].
  apply ExecuteString_OK_some in Hs as [g Hg]. by destruct (Hno g).
Qed.

(** The zero bytes that fill the array of the read change nothing. *)
Lemma ExecuteString_OK_zeros (s : string) (k : nat) :
  ExecuteString_OK (s +:+ string_of_bytes (make_bytes k)) = ExecuteString_OK s.
Proof.
  destruct (String.prefix "OK " s) eqn:Hp.
  - apply prefix_OK in Hp as [t ->]. rewrite string_app_assoc.
    by rewrite !ExecuteString_OK_prefixed, hex_run_zeros.
  - rewrite !ExecuteString_OK_unprefixed; try done. by rewrite prefix_OK_zeros.
Qed.

Lemma OK_guid_zeros (s g : string) (k : nat) :
  OK_guid s g -> OK_guid (s +:+ string_of_bytes (make_bytes k)) g.
Proof.
  intros (rest & -> & Hne & Hg & Hr).
  exists (rest +:+ string_of_bytes (make_bytes k)).
  rewrite !string_app_assoc. repeat split; try done.
  by rewrite hex_run_zeros.
Qed.

(** A prefix of the bytes of a string is the bytes of a prefix of it. *)
Lemma string_of_bytes_take (n : nat) (s : string) :
  string_of_bytes (take n (Bytes s)) = String.substring 0 n s.
Proof.
  unfold string_of_bytes, string_of_list_byte, Bytes, list_byte_of_string.
  revert n. induction s as [|c s IH]; intros [|n]; simpl; try done.
  by rewrite ascii_of_byte_of_ascii, IH.
Qed.

Lemma length_Bytes (s : string) : List.length (Bytes s) = String.length s.
Proof.
  unfold Bytes, list_byte_of_string. rewrite length_map.
  induction s as [|c s IH]; simpl; [done|]. by rewrite IH.
Qed.

Lemma substring_app_ge (a b : string) (n : nat) :
  (String.length a <= n)%nat ->
  String.substring 0 n (a +:+ b) = a +:+ String.substring 0 (n - String.length a) b.
Proof.
  revert n. induction a as [|c a IH]; intros n Hn; unfold_append; simpl in *.
  - by rewrite Nat.sub_0_r.
  - destruct n as [|n]; [lia|]. simpl. rewrite IH by lia. done.
Qed.

Lemma hex_run_substring (s : string) (m : nat) :
  hex_run s = 0%nat -> hex_run (String.substring 0 m s) = 0%nat.
Proof.
  destruct s as [|c s], m as [|m]; simpl; try done.
  by destruct (is_hex c).
Qed.

(** A first piece that holds [OK ] and the guid whole matches with that
    guid, however the line is cut after it. *)
Lemma OK_guid_first_piece (g tail : string) (first : list byte) (later : list (list byte)) :
  g <> EmptyString -> hex_run g = String.length g -> hex_run tail = 0%nat ->
  (3 + String.length g <= 1000)%nat ->
  List.concat (first :: later) = Bytes ("OK " +:+ g +:+ tail) ->
  (3 + String.length g <= List.length first)%nat ->
  OK_guid (string_of_bytes (take 1000 first)) g.
Proof.
  intros Hne Hg Ht Hk Hcat Hlen. simpl in Hcat.
  assert (first = take (List.length first) (Bytes ("OK " +:+ g +:+ tail))) as Hf.
  { rewrite <- Hcat. by rewrite take_app_length. }
  rewrite Hf, take_take, string_of_bytes_take.
  set (n := (1000 `min` List.length first)%nat).
  assert (3 + String.length g <= n)%nat as Hn by (unfold n; lia).
  rewrite <- string_app_assoc.
  rewrite substring_app_ge by (rewrite string_length_app; simpl; lia).
  rewrite string_app_assoc.
  eexists. split; [reflexivity|]. repeat split; try done.
  by apply hex_run_substring.
Qed.

(** A match stays a match when more follows, with a guid that may be
    longer. *)
Lemma OK_guid_extend (r x g : string) :
  OK_guid r g -> exists g', OK_guid (r +:+ x) g'.
Proof.
  intros (rest & -> & Hne & Hg & Hr).
  apply (ExecuteString_OK_some _
           [0; 3 + hex_run (g +:+ rest +:+ x); 3; 3 + hex_run (g +:+ rest +:+ x)]%nat).
  rewrite !string_app_assoc, ExecuteString_OK_prefixed.
  destruct g as [|c g]; [done|]. unfold_append. simpl in *.
  destruct (is_hex c); [done|]. discriminate Hg.
Qed.

(** What the read of the handshake receives is the front of what the peer
    sends. *)
Lemma response_prefix (c : Conn) :
  exists x, peer_stream c = response c +:+ x.
Proof.
  unfold peer_stream, response, conn_Read.
  destruct (incoming c) as [|piece rest]; simpl.
  - by exists EmptyString.
  - exists (string_of_bytes (drop 1000 piece ++ List.concat rest)).
    by rewrite <- string_of_bytes_app, app_assoc, take_drop.
Qed.

Section Handshake.
Context `{Codec} `{IntrospectLib}.

(** What [_Auth] does in terms of the bytes its read receives. *)
Lemma Auth_unfold (p : Connection) (w : World) :
  let c0 := conn p in
  let sent := (writes c0 ++ auth_lines (uid w))%list in
  let c1 := mkConn (incoming c0) sent (wfail c0) in
  let c2 := snd (conn_Read 1000 c1) in
  _Auth (p, w) =
  match ExecuteString_OK (response c0) with
  | Some m =>
      (None,
       (set_guid (slice (response c0 +:+ string_of_bytes
                           (make_bytes (1000 - List.length (fst (fst (conn_Read 1000 c0))))))
                        (nth 2 m 0%nat) (nth 3 m 0%nat))
          (set_conn (mkConn (incoming c2) (sent ++ [Bytes ("BEGIN" +:+ CRLF)]) (wfail c0)) p),
        w))
  | None =>
      (Some (NewError "Auth Failed"),
       (set_conn (mkConn (incoming c2) sent (wfail c0)) p, w))
  end.
Proof.
  unfold _Auth, response, conn_Write, conn_Read, auth_lines. simpl.
  destruct (incoming (conn p)) as [|piece rest]; simpl.
  - by rewrite <- !app_assoc.
  - rewrite !string_of_bytes_app, ExecuteString_OK_zeros.
    rewrite <- !app_assoc. simpl.
    destruct (ExecuteString_OK (string_of_bytes (take 1000 piece))); reflexivity.
Qed.

Lemma BEGIN_not_in_auth_lines (u : N) :
  ~ In (Bytes ("BEGIN" +:+ CRLF)) (auth_lines u).
Proof.
  unfold auth_lines. intros [Hin|[Hin|[]]]; discriminate Hin.
Qed.

Lemma Auth_matching (p : Connection) (w : World) (g : string) :
  OK_guid (response (conn p)) g ->
  exists c,
    _Auth (p, w) = (None, (set_guid g (set_conn c p), w))
    /\ writes c = (writes (conn p) ++ auth_lines (uid w)
                   ++ [Bytes ("BEGIN" +:+ CRLF)])%list.
Proof.
  intros Hg. rewrite Auth_unfold.
  destruct (ExecuteString_OK_match _ _ Hg) as [-> _].
  eexists. split.
  - cbn [nth].
    destruct (ExecuteString_OK_match _ _ (OK_guid_zeros _ _
                (1000 - List.length (fst (fst (conn_Read 1000 (conn p))))) Hg))
      as [_ ->].
    reflexivity.
  - cbn [writes]. by rewrite <- app_assoc.
Qed.

Lemma Auth_not_matching (p : Connection) (w : World) :
  (forall g, ~ OK_guid (response (conn p)) g) ->
  exists c,
    _Auth (p, w) = (Some (NewError "Auth Failed"), (set_conn c p, w))
    /\ writes c = (writes (conn p) ++ auth_lines (uid w))%list.
Proof.
  intros Hno. rewrite Auth_unfold.
  rewrite (ExecuteString_OK_no_match _ Hno).
  eexists. split; reflexivity.
Qed.

(** C4, as the code has it. The response is what the peer sends, from its
    first byte on; it matches [OK <hex-guid>] when it starts with [OK ]
    followed by hexadecimal digits, the guid. A response that does not
    match makes [_Auth] return the error [Auth Failed]; the connection it
    leaves has the guid it had, and the socket has received the two lines
    of the greeting and nothing else, so no [BEGIN]. A response that
    matches with guid [g], and of which the first read receives [OK ] and
    the guid whole, within its 1000 bytes, makes [_Auth] return [nil]; the
    connection it leaves has the guid [g], and the socket has received the
    greeting and then [BEGIN]. *)
Theorem Auth_response (p : Connection) (w : World) :
  let p' := fst (snd (_Auth (p, w))) in
  let r := peer_stream (conn p) in
  ((forall g, ~ OK_guid r g) ->
     fst (_Auth (p, w)) = Some (NewError "Auth Failed")
     /\ guid p' = guid p
     /\ writes (conn p') = (writes (conn p) ++ auth_lines (uid w))%list
     /\ ~ In (Bytes ("BEGIN" +:+ CRLF)) (auth_lines (uid w)))
  /\ (forall g first later,
       OK_guid r g ->
       incoming (conn p) = first :: later ->
       (3 + String.length g <= List.length first)%nat ->
       (3 + String.length g <= 1000)%nat ->
       fst (_Auth (p, w)) = None
       /\ guid p' = g
       /\ writes (conn p')
          = (writes (conn p) ++ auth_lines (uid w) ++ [Bytes ("BEGIN" +:+ CRLF)])%list).
Proof.
  intros p' r. subst p' r. split.
  - intros Hno.
    destruct (Auth_not_matching p w) as (c & -> & Hw).
    + intros g Hg. destruct (response_prefix (conn p)) as [x Hx].
      destruct (OK_guid_extend _ x _ Hg) as [g' Hg'].
      apply (Hno g'). by rewrite Hx.
    + split_and!; try done. apply BEGIN_not_in_auth_lines.
  - intros g first later (rest & Hr & Hne & Hg & Hrest) Hin Hlen Hk.
    destruct (Auth_matching p w g) as (c & -> & Hw); [|done].
    unfold response, conn_Read. rewrite Hin. cbn [fst].
    eapply (OK_guid_first_piece g rest first later); try done.
    unfold peer_stream in Hr. rewrite Hin in Hr.
    apply (f_equal list_byte_of_string) in Hr.
    unfold string_of_bytes in Hr.
    by rewrite list_byte_of_string_of_list_byte in Hr.
Qed.

(** C5, as the code has it. [_Auth] takes the response from one read of at
    most 1000 bytes. For every splitting of the peer's line
    [OK <guid>] into successive reads whose first read receives [OK ] and
    the guid whole, authentication succeeds and stores the guid, as it does
    when the line arrives in one read. *)
Theorem Auth_first_read (p p1 : Connection) (w : World) (g tail : string)
    (first : list byte) (later : list (list byte)) :
  g <> EmptyString -> hex_run g = String.length g -> hex_run tail = 0%nat ->
  (3 + String.length g <= 1000)%nat ->
  List.concat (first :: later) = Bytes ("OK " +:+ g +:+ tail) ->
  (3 + String.length g <= List.length first)%nat ->
  incoming (conn p) = first :: later ->
  incoming (conn p1) = [Bytes ("OK " +:+ g +:+ tail)] ->
  (fst (_Auth (p, w)) = None /\ guid (fst (snd (_Auth (p, w)))) = g)
  /\ (fst (_Auth (p1, w)) = None /\ guid (fst (snd (_Auth (p1, w)))) = g).
Proof.
  intros Hne Hg Ht Hk Hcat Hlen Hp Hp1.
  assert (forall q fst' later',
            List.concat (fst' :: later') = Bytes ("OK " +:+ g +:+ tail) ->
            (3 + String.length g <= List.length fst')%nat ->
            incoming (conn q) = fst' :: later' ->
            fst (_Auth (q, w)) = None /\ guid (fst (snd (_Auth (q, w)))) = g) as Hall.
  { intros q f l Hc Hl Hq.
    destruct (Auth_matching q w g) as (c & -> & _); [|done].
    unfold response, conn_Read. rewrite Hq. cbn [fst].
    by eapply OK_guid_first_piece. }
  split.
  - by eapply Hall.
  - eapply Hall; [| |exact Hp1].
    + simpl. by rewrite app_nil_r.
    + rewrite length_Bytes, !string_length_app. simpl. lia.
Qed.

End Handshake.

Section Receiver.
Context `{Codec} `{IntrospectLib}.

(** C6, as the code has it. When the codec reports an error on the buffered
    bytes, whichever it is, [_PopMessage] returns that error to the
    receiver loop and leaves the connection as it is; the receiver loop
    answers every error in the same way: it reads once from the socket,
    puts what it received at the end of the buffer and tries again. The
    turn dispatches nothing and leaves the world outside the connection,
    its standard output included, as it is. *)
Theorem receiver_on_error (p : Connection) (msg : option Message) (n : nat) (e : Error) :
  _Unmarshal (buffer p) = (msg, n, Some e) ->
  _PopMessage p = ((None, Some e), p)
  /\ _MessageReceiver_turn p = (Refilled e (fst (_UpdateBuffer p)), snd (_UpdateBuffer p))
  /\ buffer (snd (_UpdateBuffer p))
     = (buffer p ++ fst (fst (conn_Read 4096 (conn p))))%list
  /\ (forall w, _RunLoop_turn (p, w) = Done (snd (_UpdateBuffer p), w)).
Proof.
  intros Hu.
  assert (_PopMessage p = ((None, Some e), p)) as Hpop
    by (unfold _PopMessage; by rewrite Hu).
  assert (_MessageReceiver_turn p
          = (Refilled e (fst (_UpdateBuffer p)), snd (_UpdateBuffer p))) as Hturn.
  { unfold _MessageReceiver_turn. rewrite Hpop. by destruct (_UpdateBuffer p). }
  repeat split; try done.
  - unfold _UpdateBuffer. by destruct (conn_Read 4096 (conn p)) as [[data e'] c].
  - intros w. unfold _RunLoop_turn. by rewrite Hturn.
Qed.

End Receiver.

Section Serials.
Context `{Codec} `{IntrospectLib}.


Lemma uint32_small (x : Z) : 0 <= x < 2 ^ 32 -> uint32 x = x.
Proof. intros Hx. unfold uint32. by apply Z.mod_small. Qed.

(** [serials_given] holds once [Initialize] has made the registry, and the
    dispatcher keeps it when the function it calls leaves the counter
    alone. *)
Lemma serials_given_empty (p : Connection) (w : World) :
  0 <= lastSerial w < 2 ^ 32 - 1 ->
  serials_given (set_methodCallReplies ∅ p) w.
Proof.
  intros Hc. split; [done|]. intros k [f Hf]. simpl in Hf.
  by rewrite lookup_empty in Hf.
Qed.

Lemma serials_given_dispatch (m : option Message) (p p' : Connection) (w w' : World) :
  serials_given p w ->
  lastSerial w' = lastSerial w ->
  _MessageDispatch m (p, w) = Done (p', w') ->
  serials_given p' w'.
Proof.
  intros [Hc Hk] Hls Hd. split; [by rewrite Hls|].
  intros k Hsome. rewrite Hls. apply Hk.
  destruct (methodCallReplies p !! k) eqn:Hl; [eauto|].
  rewrite (dispatch_keeps_absent _ _ _ _ _ _ Hd Hl) in Hsome. by destruct Hsome.
Qed.

Lemma SendSync_post_registry (msg : Message) (callback : Reply) (p : Connection) (w : World) :
  let s' := snd (_SendSync_post msg callback (p, w)) in
  methodCallReplies (fst s')
  = <[uint32 (serial msg) := replyFunc_of callback (fresh w)]> (methodCallReplies p)
  /\ lastSerial (snd s') = lastSerial w
  /\ fst (_SendSync_post msg callback (p, w)) = fresh w.
Proof.
  unfold _SendSync_post. simpl.
  destruct (_Marshal msg) as [buff e]. by simpl.
Qed.

(** One call through the send path keeps [serials_given], takes a key that
    no outstanding call has, and leaves the outstanding calls registered. *)
Lemma send_fresh (callback : Reply) (p : Connection) (w : World) :
  serials_given p w ->
  let msg := fst (NewMessage w) in
  let s' := snd (_SendSync_post msg callback (p, snd (NewMessage w))) in
  uint32 (serial msg) = lastSerial w + 1
  /\ methodCallReplies p !! uint32 (serial msg) = None
  /\ (forall k, is_Some (methodCallReplies p !! k) ->
        methodCallReplies (fst s') !! k = methodCallReplies p !! k)
  /\ is_Some (methodCallReplies (fst s') !! uint32 (serial msg))
  /\ lastSerial (snd s') = lastSerial w + 1
  /\ (lastSerial w + 1 < 2 ^ 32 - 1 -> serials_given (fst s') (snd s')).
Proof.
  intros [Hc Hk] msg s'.
  destruct (SendSync_post_registry msg callback p (snd (NewMessage w)))
    as (Hreg & Hls & _). fold s' in Hreg, Hls.
  assert (uint32 (serial msg) = lastSerial w + 1) as Hs
    by (apply uint32_small; simpl; lia).
  assert (methodCallReplies p !! uint32 (serial msg) = None) as Hnone.
  { destruct (methodCallReplies p !! uint32 (serial msg)) eqn:Hl; [|done].
    specialize (Hk _ (mk_is_Some _ _ Hl)). lia. }
  split_and!; try done.
  - intros k Hsome. rewrite Hreg. apply lookup_insert_ne. intros <-.
    rewrite Hnone in Hsome. by destruct Hsome.
  - rewrite Hreg, lookup_insert_eq. eauto.
  - intros Hroom. split; [rewrite Hls; simpl; lia|].
    intros k. rewrite Hreg, Hls.
    destruct (decide (uint32 (serial msg) = k)) as [<-|Hne].
    + intros _. rewrite Hs. simpl. lia.
    + rewrite lookup_insert_ne by done. intros Hsome. specialize (Hk _ Hsome).
      simpl. lia.
Qed.

(** C7. With the serials coming from [NewMessage] and fewer than [2^32 - 2]
    of them given out so far: a call sent through [_SendSync] is registered
    under a serial that no outstanding call of the connection has, the
    outstanding calls stay registered, and the call issued right after it
    gets a serial different from the first, which is still outstanding. *)
Theorem send_serials_fresh (cb1 cb2 : Reply) (p : Connection) (w : World) :
  serials_given p w ->
  lastSerial w + 2 < 2 ^ 32 ->
  let msg1 := fst (NewMessage w) in
  let s1 := snd (_SendSync_post msg1 cb1 (p, snd (NewMessage w))) in
  let msg2 := fst (NewMessage (snd s1)) in
  let s2 := snd (_SendSync_post msg2 cb2 (fst s1, snd (NewMessage (snd s1)))) in
  methodCallReplies p !! uint32 (serial msg1) = None
  /\ methodCallReplies (fst s1) !! uint32 (serial msg2) = None
  /\ uint32 (serial msg1) <> uint32 (serial msg2)
  /\ is_Some (methodCallReplies (fst s2) !! uint32 (serial msg1))
  /\ is_Some (methodCallReplies (fst s2) !! uint32 (serial msg2))
  /\ (forall k, is_Some (methodCallReplies p !! k) ->
        methodCallReplies (fst s2) !! k = methodCallReplies p !! k).
Proof.
  intros Hinv Hroom msg1 s1 msg2 s2.
  destruct (send_fresh cb1 p w Hinv) as (Hs1 & Hn1 & Hold1 & Hin1 & Hls1 & Hinv1).
  change (uint32 (serial msg1) = lastSerial w + 1) in Hs1.
  change (methodCallReplies p !! uint32 (serial msg1) = None) in Hn1.
  change (forall k, is_Some (methodCallReplies p !! k) ->
            methodCallReplies (fst s1) !! k = methodCallReplies p !! k) in Hold1.
  change (is_Some (methodCallReplies (fst s1) !! uint32 (serial msg1))) in Hin1.
  change (lastSerial (snd s1) = lastSerial w + 1) in Hls1.
  change (lastSerial w + 1 < 2 ^ 32 - 1 -> serials_given (fst s1) (snd s1)) in Hinv1.
  assert (serials_given (fst s1) (snd s1)) as Hinv1' by (apply Hinv1; lia).
  destruct (send_fresh cb2 (fst s1) (snd s1) Hinv1')
    as (Hs2 & Hn2 & Hold2 & Hin2 & _ & _).
  change (uint32 (serial msg2) = lastSerial (snd s1) + 1) in Hs2.
  change (methodCallReplies (fst s1) !! uint32 (serial msg2) = None) in Hn2.
  change (forall k, is_Some (methodCallReplies (fst s1) !! k) ->
            methodCallReplies (fst s2) !! k = methodCallReplies (fst s1) !! k) in Hold2.
  change (is_Some (methodCallReplies (fst s2) !! uint32 (serial msg2))) in Hin2.
  split_and!; try done.
  - rewrite Hs1, Hs2, Hls1. lia.
  - rewrite Hold2 by done. done.
  - intros k Hk. rewrite Hold2, Hold1; try done. by rewrite Hold1.
Qed.

End Serials.

Section Calls.
Context `{Codec} `{IntrospectLib}.

(** [_SendSync] returns when the wait on its channel is over, and then it
    returns [nil]; the error of [_Marshal] and the error of [Write] play no
    part. *)
Lemma SendSync_result (fuel : nat) (msg : Message) (callback : Reply) (s : State) :
  _SendSync fuel msg callback s =
  match await fuel (fst (_SendSync_post msg callback s))
              (snd (_SendSync_post msg callback s)) with
  | Done s' => Done (None, s')
  | Panic => Panic
  | Blocked => Blocked
  end.
Proof.
  unfold _SendSync. destruct (_SendSync_post msg callback s) as [ch s1]. simpl.
  by destruct (await fuel ch s1).
Qed.

Lemma SendSync_returns_nil (fuel : nat) (msg : Message) (callback : Reply)
    (s s' : State) (r : option Error) :
  _SendSync fuel msg callback s = Done (r, s') -> r = None.
Proof.
  rewrite SendSync_result.
  destruct (await _ _ _); intros Hd; by simplify_eq.
Qed.

Lemma await_unfold (fuel : nat) (ch : nat) (p : Connection) (w : World) :
  await fuel ch (p, w) =
  if decide (ch ∈ signalled w) then Done (p, receive ch w)
  else match fuel with
       | O => Blocked
       | S fuel' => _RunLoop_turn (p, w) ≫= await fuel' ch
       end.
Proof. by destruct fuel. Qed.


(** The wait goes on from where it stopped when it is given more turns. *)
Lemma await_more (fuel extra : nat) (ch : nat) (s s' : State) :
  await fuel ch s = Done s' -> await (fuel + extra) ch s = Done s'.
Proof.
  revert s. induction fuel as [|fuel IH]; intros [p w]; rewrite !await_unfold;
    destruct (decide (ch ∈ signalled w)); try done.
  cbn [Nat.add]. destruct (_RunLoop_turn (p, w)) as [s1| |]; try done.
  apply IH.
Qed.


(** C10. When the method lookup succeeds, [CallMethod] never returns an
    error: whenever it returns, it returns [nil], whatever [_Marshal] and
    the write to the socket reported; and it returns, with [nil], as soon
    as the wait for the reply is over, also when it is given more turns
    than the wait needs. *)
Theorem CallMethod_returns_nil (fuel : nat) (intf : Interface) (name : string)
    (args : list (option Value)) (p : Connection) (w : World)
    (data : InterfaceData) (method : MethodData) :
  intf_intro intf = Some data ->
  GetMethodData data name = Some method ->
  (forall r s', CallMethod fuel intf name args (p, w) = Done (r, s') -> r = None)
  /\ (forall o s' extra,
        intf_obj intf = Some o ->
        let post := _SendSync_post (call_message intf o name method args w)
                      (call_callback name) (p, snd (NewMessage w)) in
        await fuel (fst post) (snd post) = Done s' ->
        CallMethod (fuel + extra) intf name args (p, w) = Done (None, s')).
Proof.
  intros Hi Hm. split.
  - intros r s'. unfold CallMethod. rewrite Hi, Hm.
    destruct (NewMessage w) as [msg w1]. destruct (intf_obj intf) as [o|]; [|done].
    destruct (_SendSync _ _ _ _) as [[r1 s1]| |]; simpl; intros Hd; by simplify_eq.
  - intros o s' extra Ho post Ha. apply (await_more _ extra) in Ha.
    unfold CallMethod. rewrite Hi, Hm.
    unfold post, call_message in Ha.
    destruct (NewMessage w) as [msg w1]. rewrite Ho.
    rewrite SendSync_result. cbn [fst snd] in Ha. unfold call_callback in Ha.
    by rewrite Ha.
Qed.

(** [_SendHello] and [Initialize] return [nil] whenever they return. *)
Lemma SendHello_returns_nil (fuel : nat) (s s' : State) (r : option Error) :
  _SendHello fuel s = Done (r, s') -> r = None.
Proof.
  unfold _SendHello. destruct s as [p w]. destruct (NewMessage w) as [msg w1].
  destruct (_SendSync _ _ _ _) as [[r1 s1]| |]; simpl; intros Hd; by simplify_eq.
Qed.

Lemma Initialize_returns_nil (fuel : nat) (s s' : State) (r : option Error) :
  Initialize fuel s = Done (r, s') -> r = None.
Proof.
  unfold Initialize. destruct s as [p w]. destruct (_Auth _) as [e s1].
  destruct (_SendHello fuel s1) as [[r1 s2]| |]; simpl; intros Hd; by simplify_eq.
Qed.

End Calls.

Section Introspection.
Context `{Codec} `{IntrospectLib}.


Lemma same_but_stdout_refl (w : World) : same_but_stdout w w.
Proof. by repeat split. Qed.

Lemma same_but_stdout_print (l : list Printed) (w1 w2 : World) :
  same_but_stdout w1 w2 -> same_but_stdout w1 (print l w2).
Proof. unfold same_but_stdout. simpl. tauto. Qed.

Lemma receiver_turn_registry (p : Connection) :
  methodCallReplies (snd (_MessageReceiver_turn p)) = methodCallReplies p.
Proof.
  unfold _MessageReceiver_turn, _PopMessage, _UpdateBuffer.
  destruct (_Unmarshal (buffer p)) as [[msg n] [e|]]; simpl; [|done].
  by destruct (conn_Read 4096 (conn p)) as [[data e'] c].
Qed.

(** One turn of the loop while one call is outstanding: the turn either
    leaves the registry and the world outside the standard output as they
    are, or it delivers the reply of the call. *)
Lemma RunLoop_turn_single (seri : Z) (cb : Reply) (ch : nat)
    (p p' : Connection) (w w' : World) :
  methodCallReplies p = {[seri := replyFunc_of cb ch]} ->
  _RunLoop_turn (p, w) = Done (p', w') ->
  (methodCallReplies p' = {[seri := replyFunc_of cb ch]} /\ same_but_stdout w w')
  \/ (exists reply w2,
        Type_ reply = METHOD_RETURN /\ replySerial reply = seri
        /\ cb reply (record_call seri reply w) = Some w2
        /\ w' = signal ch w2 /\ methodCallReplies p' = ∅).
Proof.
  intros Hreg. unfold _RunLoop_turn.
  pose proof (receiver_turn_registry p) as Hturn.
  destruct (_MessageReceiver_turn p) as [t p1]. simpl in Hturn.
  rewrite Hreg in Hturn.
  destruct t as [[m|]|e1 e2];
    [|simpl; intros; simplify_eq; left; split; [done|apply same_but_stdout_refl]..].
  unfold _MessageDispatch.
  destruct (Type_ m) eqn:Ht;
    try (intros; simplify_eq; left; split; [done|apply same_but_stdout_refl]).
  - cbv zeta. rewrite Hturn.
    destruct (decide (replySerial m = seri)) as [Hrs|Hrs].
    + rewrite Hrs, lookup_singleton_eq. unfold replyFunc_of at 1.
      destruct (cb m (record_call seri m w)) as [w2|] eqn:Hcb; [|done].
      intros Hd. simplify_eq. right. exists m, w2. split_and!; try done.
      simpl. apply delete_singleton_eq.
    + rewrite lookup_singleton_ne by done.
      intros; simplify_eq; left; split; [done|apply same_but_stdout_refl].
  - intros; simplify_eq; left; split; [done|].
    apply same_but_stdout_print, same_but_stdout_refl.
Qed.




Lemma CallMethod_invalid (fuel : nat) (intf : Interface) (name : string)
    (args : list (option Value)) (s : State) (data : InterfaceData) :
  intf_intro intf = Some data ->
  GetMethodData data name = None ->
  CallMethod fuel intf name args s = Done (Some (NewError "Invalid Method"), s).
Proof. intros Hi Hm. unfold CallMethod. destruct s. by rewrite Hi, Hm. Qed.


End Introspection.

(** * Runs on the fixture *)

Section Runs.
#[local] Existing Instance Fixture.codec.
#[local] Existing Instance Fixture.introspectLib.

Lemma dispatch_method_return_witness :
  _MessageDispatch (Some (return_for 7)) (connection_waiting, world0)
  = Done (set_methodCallReplies
            (delete 7 (methodCallReplies connection_waiting)) connection_waiting,
          print [PrintLn ["send hello success"]] (record_call 7 (return_for 7) world0))
  /\ _MessageDispatch (Some (return_for 8)) (connection_waiting, world0)
     = Done (connection_waiting, world0).
Proof.
  destruct (dispatch_method_return connection_waiting world0 (return_for 7) eq_refl)
    as [Hreg _].
  destruct (dispatch_method_return connection_waiting world0 (return_for 8) eq_refl)
    as [_ Hunreg].
  split.
  - apply (Hreg hello_printer); reflexivity.
  - apply Hunreg. reflexivity.
Defined.

Lemma PopMessage_buffer_witness :
  (exists front rest,
      _PopMessage connection_framed
      = ((Some (mkMessage METHOD_RETURN "" "" "" "" "" 0 7 [VString "hi"]), None),
         set_buffer rest connection_framed)
      /\ buffer connection_framed = (front ++ rest)%list
      /\ List.length front = 6%nat
      /\ List.length rest = (List.length (buffer connection_framed) - 6)%nat)
  /\ _PopMessage connection_partial = ((None, Some "incomplete"), connection_partial).
Proof.
  split.
  - apply (proj1 (PopMessage_buffer connection_framed)); [reflexivity|simpl; lia].
  - apply (proj2 (PopMessage_buffer connection_partial) None 0%nat). reflexivity.
Defined.

(** C3, at a rejected handshake. The peer answers the greeting with
    [REJECTED EXTERNAL] and later answers the Hello call: [_Auth] returns
    the error [Auth Failed], and [Initialize] goes on, sends Hello, waits
    for its reply and returns [nil]. *)
Theorem Initialize_hides_auth_failure :
  let p := connection0 [Bytes rejected_line; reply_empty] in
  fst (_Auth (set_buffer [] (set_methodCallReplies ∅ p), world0))
  = Some (NewError "Auth Failed")
  /\ exists s', Initialize 2 (p, world0) = Done (None, s')
               /\ stdout (snd s') = [PrintLn ["send hello success"]].
Proof.
  split; [reflexivity|]. eexists. split; reflexivity.
Qed.

Lemma Auth_response_witness :
  let rejected := connection0 [Bytes rejected_line] in
  let accepted := connection0 [Bytes ok_line] in
  (fst (_Auth (rejected, world0)) = Some (NewError "Auth Failed")
   /\ guid (fst (snd (_Auth (rejected, world0)))) = guid rejected
   /\ writes (conn (fst (snd (_Auth (rejected, world0)))))
      = (writes (conn rejected) ++ auth_lines (uid world0))%list
   /\ ~ In (Bytes ("BEGIN" +:+ CRLF)) (auth_lines (uid world0)))
  /\ (fst (_Auth (accepted, world0)) = None
      /\ guid (fst (snd (_Auth (accepted, world0)))) = "1234abcd"
      /\ writes (conn (fst (snd (_Auth (accepted, world0)))))
         = (writes (conn accepted) ++ auth_lines (uid world0)
            ++ [Bytes ("BEGIN" +:+ CRLF)])%list).
Proof.
  intros rejected accepted. split.
  - apply (proj1 (Auth_response rejected world0)).
    intros g (rest & Heq & _). discriminate Heq.
  - apply (proj2 (Auth_response accepted world0) "1234abcd" (Bytes ok_line) []).
    + exists CRLF. repeat split. discriminate.
    + reflexivity.
    + simpl. lia.
    + simpl. lia.
Defined.

(** C4, as stated, fails: the peer answers [OK 1234abcd], a response that
    matches with the guid [1234abcd]. When the first read receives only its
    first byte, [_Auth] returns [Auth Failed] and writes no [BEGIN]; when
    the first read ends after [OK 12], [_Auth] stores [12]. And the line
    [OK 12zz], which is [OK <guid>] for no hexadecimal guid, is accepted:
    [_Auth] stores [12] and writes [BEGIN]. *)
Lemma Auth_matching_response_cut :
  let cut_in_OK := connection0 [Bytes "O"; Bytes ("K 1234abcd" +:+ CRLF)] in
  let cut_in_guid := connection0 [Bytes "OK 12"; Bytes ("34abcd" +:+ CRLF)] in
  let junk := connection0 [Bytes ok_junk_line] in
  OK_guid (peer_stream (conn cut_in_OK)) "1234abcd"
  /\ fst (_Auth (cut_in_OK, world0)) = Some (NewError "Auth Failed")
  /\ writes (conn (fst (snd (_Auth (cut_in_OK, world0))))) = auth_lines 1000
  /\ ~ In (Bytes ("BEGIN" +:+ CRLF))
         (writes (conn (fst (snd (_Auth (cut_in_OK, world0))))))
  /\ OK_guid (peer_stream (conn cut_in_guid)) "1234abcd"
  /\ fst (_Auth (cut_in_guid, world0)) = None
  /\ guid (fst (snd (_Auth (cut_in_guid, world0)))) = "12"
  /\ guid (fst (snd (_Auth (cut_in_guid, world0)))) <> "1234abcd"
  /\ (forall g, hex_run g = String.length g -> ok_junk_line <> "OK " +:+ g +:+ CRLF)
  /\ fst (_Auth (junk, world0)) = None
  /\ guid (fst (snd (_Auth (junk, world0)))) = "12"
  /\ writes (conn (fst (snd (_Auth (junk, world0)))))
     = (auth_lines 1000 ++ [Bytes ("BEGIN" +:+ CRLF)])%list.
Proof.
  intros cut_in_OK cut_in_guid junk.
  assert (forall c, peer_stream c = ok_line -> OK_guid (peer_stream c) "1234abcd") as Hok.
  { intros c ->. exists CRLF. repeat split. discriminate. }
  split_and!; try reflexivity; try discriminate.
  - by apply Hok.
  - apply BEGIN_not_in_auth_lines.
  - by apply Hok.
  - intros g Hg Heq. unfold ok_junk_line in Heq. injection Heq as Heq.
    rewrite append_nil in Heq.
    pose proof (f_equal hex_run Heq) as Hrun.
    pose proof (f_equal String.length Heq) as Hlen.
    rewrite (hex_run_app g CRLF Hg eq_refl) in Hrun.
    rewrite (string_length_app g), <- Hrun in Hlen. discriminate Hlen.
Qed.

(** C5, as stated, fails: the line [OK 1234abcd] cut after [OK 12] gives the
    guid [12], and cut after [O] it makes the handshake fail. *)
Lemma Auth_split_counterexample :
  let whole := [Bytes ok_line] in
  let cut_in_guid := [Bytes "OK 12"; Bytes ("34abcd" +:+ CRLF)] in
  let cut_in_OK := [Bytes "O"; Bytes ("K 1234abcd" +:+ CRLF)] in
  List.concat cut_in_guid = List.concat whole
  /\ List.concat cut_in_OK = List.concat whole
  /\ _Auth (connection0 whole, world0)
     = (None, (set_guid "1234abcd"
                 (set_conn (mkConn [] (auth_lines 1000 ++ [Bytes ("BEGIN" +:+ CRLF)]) false)
                    (connection0 whole)), world0))
  /\ fst (_Auth (connection0 cut_in_guid, world0)) = None
  /\ guid (fst (snd (_Auth (connection0 cut_in_guid, world0)))) = "12"
  /\ fst (_Auth (connection0 cut_in_OK, world0)) = Some (NewError "Auth Failed")
  /\ guid (fst (snd (_Auth (connection0 cut_in_OK, world0)))) = "".
Proof. repeat split. Qed.

Lemma Auth_first_read_witness :
  let p := connection0 [Bytes "OK 1234abcd"; Bytes CRLF] in
  let p1 := connection0 [Bytes ok_line] in
  (fst (_Auth (p, world0)) = None /\ guid (fst (snd (_Auth (p, world0)))) = "1234abcd")
  /\ (fst (_Auth (p1, world0)) = None /\ guid (fst (snd (_Auth (p1, world0)))) = "1234abcd").
Proof.
  apply (Auth_first_read _ _ world0 "1234abcd" CRLF (Bytes "OK 1234abcd") [Bytes CRLF]);
    try reflexivity; try discriminate; simpl; lia.
Defined.

(** C6, as stated, fails: on a frame with an unknown tag the codec
    reports [malformed], and the receiver loop reads from the socket and
    tries again; the malformed bytes stay at the front of the buffer, so
    the good frame behind them is never decoded, and nothing is printed. *)
Lemma receiver_retries_malformed :
  let stuck :=
    set_buffer [xff; x00; x00; x00; x02; x01; x00; x00]
               (set_conn (mkConn [] [] false) connection_malformed) in
  snd (_Unmarshal (buffer connection_malformed)) = Some "malformed"
  /\ _MessageReceiver_turn connection_malformed = (Refilled "malformed" None, stuck)
  /\ _RunLoop_turn (connection_malformed, world0) = Done (stuck, world0)
  /\ snd (_Unmarshal (buffer stuck)) = Some "malformed"
  /\ _RunLoop_turn (stuck, world0) = Done (stuck, world0).
Proof. repeat split. Qed.

Lemma receiver_on_error_witness :
  _PopMessage connection_malformed = ((None, Some "malformed"), connection_malformed)
  /\ _MessageReceiver_turn connection_malformed
     = (Refilled "malformed" (fst (_UpdateBuffer connection_malformed)),
        snd (_UpdateBuffer connection_malformed))
  /\ buffer (snd (_UpdateBuffer connection_malformed))
     = (buffer connection_malformed
        ++ fst (fst (conn_Read 4096 (conn connection_malformed))))%list
  /\ (forall w, _RunLoop_turn (connection_malformed, w)
               = Done (snd (_UpdateBuffer connection_malformed), w)).
Proof.
  apply (receiver_on_error connection_malformed None 0%nat "malformed"). reflexivity.
Defined.

Lemma serials_given_one_out : serials_given connection_one_out world_one_out.
Proof.
  split; [simpl; lia|]. intros k [f Hf].
  change (methodCallReplies connection_one_out) with ({[1 := hello_printer]} : gmap Z Reply) in Hf.
  apply lookup_singleton_Some in Hf as [<- _]. simpl. lia.
Defined.

Lemma send_serials_fresh_witness :
  let p := connection_one_out in
  let w := world_one_out in
  let msg1 := fst (NewMessage w) in
  let s1 := snd (_SendSync_post msg1 hello_printer (p, snd (NewMessage w))) in
  let msg2 := fst (NewMessage (snd s1)) in
  let s2 := snd (_SendSync_post msg2 hello_printer (fst s1, snd (NewMessage (snd s1)))) in
  methodCallReplies p !! uint32 (serial msg1) = None
  /\ methodCallReplies (fst s1) !! uint32 (serial msg2) = None
  /\ uint32 (serial msg1) <> uint32 (serial msg2)
  /\ is_Some (methodCallReplies (fst s2) !! uint32 (serial msg1))
  /\ is_Some (methodCallReplies (fst s2) !! uint32 (serial msg2))
  /\ (forall k, is_Some (methodCallReplies p !! k) ->
        methodCallReplies (fst s2) !! k = methodCallReplies p !! k).
Proof.
  apply (send_serials_fresh hello_printer hello_printer
           connection_one_out world_one_out serials_given_one_out).
  simpl. lia.
Defined.

(** C7, as stated, fails at the end of the 32-bit range. The call of
    serial 1 is outstanding and [2^32] serials have been given out: the
    next message takes the serial [2^32 + 1], which no message had before;
    the registry keeps it as the 32-bit number 1, the key of the
    outstanding call, whose function is replaced: two calls are
    outstanding and the registry has one entry. *)
Lemma send_serial_wraps :
  let p := connection_one_out in
  let w := world_wrapped in
  let msg := fst (NewMessage w) in
  let s1 := snd (_SendSync_post msg (call_callback "Ping") (p, snd (NewMessage w))) in
  (forall k, is_Some (methodCallReplies p !! k) -> 0 <= k <= lastSerial w)
  /\ serial msg = 2 ^ 32 + 1
  /\ lastSerial w < serial msg
  /\ uint32 (serial msg) = 1
  /\ methodCallReplies p !! uint32 (serial msg) = Some hello_printer
  /\ methodCallReplies (fst s1)
     = {[1 := replyFunc_of (call_callback "Ping") (fresh w)]}
  /\ size (methodCallReplies (fst s1)) = 1%nat
  /\ replyFunc_of (call_callback "Ping") (fresh w) (return_for 1) world0
     <> hello_printer (return_for 1) world0.
Proof.
  cbv zeta. split_and!; try reflexivity; try discriminate.
  intros k [f Hf].
  change (methodCallReplies connection_one_out)
    with ({[1 := hello_printer]} : gmap Z Reply) in Hf.
  apply lookup_singleton_Some in Hf as [<- _]. simpl. lia.
Qed.

Lemma CallMethod_returns_nil_witness :
  let args := [Some (VString "hi")] in
  snd (_Marshal (call_message interface_echo object_unnamed "Ping" "s" args world0))
  = Some "marshal: empty path"
  /\ wfail (conn connection_broken) = true
  /\ (forall r s',
        CallMethod 2 interface_echo "Ping" args (connection_broken, world0) = Done (r, s') ->
        r = None)
  /\ exists s',
      CallMethod (2 + 0) interface_echo "Ping" args (connection_broken, world0)
      = Done (None, s').
Proof.
  intros args. split; [reflexivity|]. split; [reflexivity|].
  destruct (CallMethod_returns_nil 2 interface_echo "Ping" args
              connection_broken world0 [("Ping", "s")] "s" eq_refl eq_refl)
    as [Hnil Hlive].
  split; [exact Hnil|].
  eexists. apply (Hlive object_unnamed _ 0%nat eq_refl). reflexivity.
Defined.

End Runs.

(** * More of the engine *)

Section Stream.
Context `{Codec} `{IntrospectLib}.

Lemma conn_Read_stream (k : nat) (c : Conn) :
  let r := conn_Read k c in
  List.concat (incoming c) = (fst (fst r) ++ List.concat (incoming (snd r)))%list
  /\ (List.length (fst (fst r)) <= k)%nat
  /\ writes (snd r) = writes c /\ wfail (snd r) = wfail c
  /\ (snd (fst r) = None <-> incoming c <> []).
Proof.
  unfold conn_Read. destruct (incoming c) as [|piece rest] eqn:Hin; simpl.
  - rewrite Hin. split_and!; try done; simpl; try lia.
  - split_and!; try done.
    + destruct (drop k piece) as [|x unread] eqn:Hd; simpl.
      * rewrite <- (take_drop k piece) at 1. by rewrite Hd, app_nil_r.
      * change (x :: unread ++ List.concat rest)%list
          with ((x :: unread) ++ List.concat rest)%list.
        rewrite <- Hd, app_assoc. by rewrite take_drop.
    + rewrite length_take. lia.
Qed.

Lemma conn_Read_reads_left (k : nat) (c : Conn) :
  (0 < k)%nat -> incoming c <> [] ->
  (reads_left (incoming (snd (conn_Read k c))) < reads_left (incoming c))%nat.
Proof.
  intros Hk Hin. unfold conn_Read, reads_left.
  destruct (incoming c) as [|piece rest]; [done|]. simpl.
  destruct (drop k piece) as [|x unread] eqn:Hd; simpl.
  - rewrite length_app. lia.
  - rewrite !length_app.
    assert (List.length (x :: unread) = (List.length piece - k)%nat) as Hl
      by (rewrite <- Hd; apply length_drop).
    simpl in Hl.
    assert (List.length piece <> 0)%nat by (destruct piece; [by destruct k|done]).
    lia.
Qed.


Lemma UpdateBuffer_eof (p : Connection) :
  incoming (conn p) = [] -> _UpdateBuffer p = (Some "EOF", p).
Proof.
  intros Hin. unfold _UpdateBuffer, conn_Read. rewrite Hin.
  destruct p as [? ? ? ? c ?]. simpl. by rewrite app_nil_r.
Qed.

Lemma UpdateBuffer_more (p : Connection) :
  incoming (conn p) <> [] ->
  exists data c,
    _UpdateBuffer p = (None, set_buffer (buffer p ++ data) (set_conn c p))
    /\ List.concat (incoming (conn p)) = (data ++ List.concat (incoming c))%list
    /\ writes c = writes (conn p) /\ wfail c = wfail (conn p)
    /\ (reads_left (incoming c) < reads_left (incoming (conn p)))%nat.
Proof.
  intros Hin. unfold _UpdateBuffer.
  destruct (conn_Read_stream 4096 (conn p)) as (Hcat & _ & Hw & Hf & He).
  pose proof (conn_Read_reads_left 4096 (conn p) ltac:(lia) Hin) as Hlt.
  destruct (conn_Read 4096 (conn p)) as [[data e] c]. cbn [fst snd] in *.
  exists data, c. apply He in Hin as ->. done.
Qed.

(** At the end of the stream, with bytes in the buffer that the codec does
    not decode, the receiver sends nothing more, whatever the number of
    its turns, and the connection stays as it is. *)
Lemma receiver_run_terminal (fuel : nat) (p : Connection) :
  incoming (conn p) = [] ->
  is_Some (snd (_Unmarshal (buffer p))) ->
  receiver_run fuel p = ([], p).
Proof.
  intros Hin [e He]. induction fuel as [|fuel IH]; [done|].
  cbn [receiver_run]. unfold _MessageReceiver_turn, _PopMessage.
  destruct (_Unmarshal (buffer p)) as [[msg n] e']. cbn in He. subst e'.
  by rewrite UpdateBuffer_eof.
Qed.

Lemma frames_of_fuel (f1 f2 : nat) (stream : list byte) :
  framing ->
  (List.length stream <= f1)%nat -> (List.length stream <= f2)%nat ->
  frames_of f1 stream = frames_of f2 stream.
Proof.
  intros [Hbound _]. revert f2 stream.
  induction f1 as [|f1 IH]; intros [|f2] stream H1 H2; cbn [frames_of]; try done.
  - destruct (_Unmarshal stream) as [[msg n] [e|]] eqn:Hu; [done|].
    apply Hbound in Hu. lia.
  - destruct (_Unmarshal stream) as [[msg n] [e|]] eqn:Hu; [done|].
    apply Hbound in Hu. lia.
  - destruct (_Unmarshal stream) as [[msg n] [e|]] eqn:Hu; [done|].
    apply Hbound in Hu.
    rewrite (IH f2 (drop n stream)); [done|rewrite length_drop; lia..].
Qed.

(** Where the receiver ends: the socket read to its end, the undecoded
    bytes in the buffer. *)
Lemma receiver_run_frames (fuel : nat) (p : Connection) :
  framing ->
  (List.length (pending p) + reads_left (incoming (conn p)) <= fuel)%nat ->
  receiver_run fuel p
  = (fst (frames_of (List.length (pending p)) (pending p)),
     set_buffer (snd (frames_of (List.length (pending p)) (pending p)))
       (set_conn (mkConn [] (writes (conn p)) (wfail (conn p))) p)).
Proof.
  intros Hfr. revert p. induction fuel as [|fuel IH]; intros p Hfuel.
  - assert (pending p = [] /\ incoming (conn p) = []) as [Hp Hin].
    { unfold reads_left in Hfuel.
      split; [apply length_zero_iff_nil; lia|].
      apply length_zero_iff_nil; lia. }
    rewrite Hp. cbn. unfold pending in Hp. apply app_eq_nil in Hp as [Hb _].
    destruct p as [? ? ? ? [? ? ?] ?]. simpl in *. by subst.
  - destruct (_Unmarshal (buffer p)) as [[msg n] [e|]] eqn:Hu.
    + destruct (incoming (conn p)) as [|piece rest] eqn:Hin.
      * rewrite receiver_run_terminal; [|done|by rewrite Hu; eauto].
        assert (pending p = buffer p) as ->
          by (unfold pending; rewrite Hin; apply app_nil_r).
        assert (frames_of (List.length (buffer p)) (buffer p) = ([], buffer p)) as ->.
        { destruct (List.length (buffer p)); [done|].
          cbn [frames_of]. by rewrite Hu. }
        destruct p as [? ? ? ? [? ? ?] ?]. simpl in *. by subst.
      * destruct (UpdateBuffer_more p) as (data & c & Hup & Hcat & Hw & Hf & Hlt);
          [by rewrite Hin|].
        cbn [receiver_run]. unfold _MessageReceiver_turn, _PopMessage.
        rewrite Hu, Hup.
        assert (pending (set_buffer (buffer p ++ data) (set_conn c p)) = pending p)
          as Hpend.
        { unfold pending. cbn. rewrite Hcat. by rewrite app_assoc. }
        rewrite IH; [|rewrite Hpend; cbn; rewrite ?Hin in Hlt; lia].
        rewrite Hpend. cbn. by rewrite Hw, Hf.
    + destruct Hfr as [Hbound Hstable].
      pose proof (Hbound _ _ _ Hu) as Hn.
      pose proof (Hstable _ (List.concat (incoming (conn p))) _ _ Hu) as Hall.
      fold (pending p) in Hall.
      cbn [receiver_run]. unfold _MessageReceiver_turn, _PopMessage. rewrite Hu.
      assert (pending (set_buffer (drop n (buffer p)) p) = drop n (pending p))
        as Hpend.
      { unfold pending. cbn. rewrite drop_app_le by lia. done. }
      rewrite IH.
      2:{ rewrite Hpend, length_drop. cbn. unfold pending in *.
          rewrite length_app in *. lia. }
      rewrite Hpend.
      assert (List.length (pending p) <> 0)%nat as Hpos
        by (unfold pending; rewrite length_app; lia).
      destruct (List.length (pending p)) as [|k] eqn:Hlen; [done|].
      cbn [frames_of]. rewrite Hall.
      rewrite (frames_of_fuel k (List.length (drop n (pending p))) (drop n (pending p)));
        [|by split|rewrite length_drop; lia|done].
      destruct (frames_of _ (drop n (pending p))) as [frames rest]. done.
Qed.

(** X2. With a codec that frames, the receiver left to itself sends on
    [msgChan] the frames of the byte stream, in the order of the stream,
    however the stream is cut into reads and whatever part of it is already
    in the buffer: two connections with the same bytes still to be decoded
    send the same messages, those the codec finds in the stream taken as a
    whole, and end with the same undecoded bytes in their buffers and the
    socket read to its end. *)
Theorem receiver_chunking (fuel : nat) (p q : Connection) :
  framing ->
  pending p = pending q ->
  (List.length (pending p) + reads_left (incoming (conn p)) <= fuel)%nat ->
  (List.length (pending q) + reads_left (incoming (conn q)) <= fuel)%nat ->
  fst (receiver_run fuel p) = fst (receiver_run fuel q)
  /\ fst (receiver_run fuel p) = fst (frames_of (List.length (pending p)) (pending p))
  /\ buffer (snd (receiver_run fuel p)) = buffer (snd (receiver_run fuel q))
  /\ buffer (snd (receiver_run fuel p)) = snd (frames_of (List.length (pending p)) (pending p))
  /\ incoming (conn (snd (receiver_run fuel p))) = [].
Proof.
  intros Hfr Hpq Hp Hq.
  rewrite (receiver_run_frames fuel p Hfr Hp), (receiver_run_frames fuel q Hfr Hq).
  rewrite Hpq. done.
Qed.

End Stream.

Section Dispatching.
Context `{Codec} `{IntrospectLib}.

Lemma print_nil (w : World) : print [] w = w.
Proof. destruct w. unfold print. simpl. by rewrite app_nil_r. Qed.

Lemma print_print (a b : list Printed) (w : World) :
  print b (print a w) = print (a ++ b) w.
Proof. unfold print. simpl. by rewrite app_assoc. Qed.

Lemma dispatch_one_unanswering (m : Message) (p : Connection) (w : World) :
  unanswering (methodCallReplies p) m ->
  _MessageDispatch (Some m) (p, w) = Done (p, print (printed_for m) w).
Proof.
  unfold unanswering, _MessageDispatch, printed_for.
  destruct (Type_ m); intros [Ht|Hk]; try done; rewrite ?print_nil; try done.
  cbv zeta. by rewrite Hk.
Qed.

(** X3. Frames that answer no outstanding call release nobody: the
    dispatcher takes the nil message and the frames of type MethodCall and
    Signal without any effect, prints the frames of type Error, also when
    their replySerial is registered, and drops the MethodReturn frames
    whose replySerial is not registered. After any sequence of such frames
    the connection and its registry are what they were, no registered
    function was called and no channel was signalled; only the standard
    output has grown, by two items for each Error frame. *)
Theorem dispatch_unanswering (frames : list Message) (p : Connection) (w : World) :
  Forall (unanswering (methodCallReplies p)) frames ->
  dispatch_frames frames (p, w)
  = Done (p, print (List.concat (printed_for <$> frames)) w)
  /\ _MessageDispatch None (p, w) = Done (p, w).
Proof.
  intros Hall. split; [|done]. revert w.
  induction Hall as [|m rest Hm Hrest IH]; intros w; cbn [dispatch_frames].
  - by rewrite print_nil.
  - rewrite (dispatch_one_unanswering m p w Hm). cbn [mbind Outcome_bind].
    rewrite IH. cbn [fmap list_fmap List.concat]. by rewrite print_print.
Qed.

Lemma dispatch_registered (m : Message) (f : Reply) (p : Connection) (w w' : World) :
  Type_ m = METHOD_RETURN ->
  methodCallReplies p !! replySerial m = Some f ->
  f m (record_call (replySerial m) m w) = Some w' ->
  _MessageDispatch (Some m) (p, w)
  = Done (set_methodCallReplies (delete (replySerial m) (methodCallReplies p)) p, w').
Proof.
  intros Ht Hf Hw. unfold _MessageDispatch. rewrite Ht. cbv zeta. by rewrite Hf, Hw.
Qed.

(** X4. Replies are matched by serial, not by order. With two calls
    outstanding under different serials, the replies arriving in the
    reverse order of the calls are each given to the function registered
    under their own replySerial, and both entries are removed. *)
Theorem dispatch_reverse_order (p : Connection) (w w1 w2 : World) (a b : Z)
    (fa fb : Reply) (ra rb : Message) :
  a <> b ->
  methodCallReplies p !! a = Some fa ->
  methodCallReplies p !! b = Some fb ->
  Type_ ra = METHOD_RETURN -> replySerial ra = a ->
  Type_ rb = METHOD_RETURN -> replySerial rb = b ->
  fb rb (record_call b rb w) = Some w1 ->
  fa ra (record_call a ra w1) = Some w2 ->
  dispatch_frames [rb; ra] (p, w)
  = Done (set_methodCallReplies (delete a (delete b (methodCallReplies p))) p, w2).
Proof.
  intros Hab Ha Hb Hta Hra Htb Hrb Hfb Hfa. subst a b.
  cbn [dispatch_frames].
  rewrite (dispatch_registered rb fb p w w1) by done. cbn [mbind Outcome_bind].
  rewrite (dispatch_registered ra fa _ w1 w2); try done.
  cbn [methodCallReplies set_methodCallReplies]. by rewrite lookup_delete_ne.
Qed.

Lemma dispatch_one_shrinks (m : option Message) (p p' : Connection) (w w' : World) :
  _MessageDispatch m (p, w) = Done (p', w') ->
  methodCallReplies p' ⊆ methodCallReplies p
  /\ (size (methodCallReplies p) <= S (size (methodCallReplies p')))%nat
  /\ conn p' = conn p /\ buffer p' = buffer p /\ guid p' = guid p.
Proof.
  unfold _MessageDispatch.
  destruct m as [m|]; [|intros; simplify_eq; split_and!; (done || lia)].
  destruct (Type_ m); try (intros; simplify_eq; split_and!; (done || lia)).
  cbv zeta. destruct (methodCallReplies p !! replySerial m) as [f|] eqn:Hf;
    [|intros; simplify_eq; split_and!; (done || lia)].
  destruct (f m _); [|done]. intros; simplify_eq. simpl.
  split_and!; try done.
  - apply delete_subseteq.
  - rewrite map_size_delete, Hf. simpl. lia.
Qed.

(** X5. The dispatcher never registers and never replaces a function: after
    any frames, every entry of the registry is an entry it had before, with
    the same function; a frame removes one entry at most; and dispatching
    touches neither the socket, nor the buffer, nor the guid. *)
Theorem dispatch_registry_shrinks (frames : list Message) (p p' : Connection)
    (w w' : World) :
  dispatch_frames frames (p, w) = Done (p', w') ->
  methodCallReplies p' ⊆ methodCallReplies p
  /\ (size (methodCallReplies p)
      <= size (methodCallReplies p') + List.length frames)%nat
  /\ conn p' = conn p /\ buffer p' = buffer p /\ guid p' = guid p.
Proof.
  revert p w. induction frames as [|m rest IH]; intros p w;
    cbn [dispatch_frames].
  - intros; simplify_eq. split_and!; (done || simpl; lia).
  - destruct (_MessageDispatch (Some m) (p, w)) as [[p1 w1]| |] eqn:Hm;
      cbn [mbind Outcome_bind]; try done.
    intros Hrest. apply dispatch_one_shrinks in Hm as (Hs1 & Hn1 & Hc1 & Hb1 & Hg1).
    apply IH in Hrest as (Hs & Hn & Hc & Hb & Hg).
    split_and!; try congruence.
    + by etrans.
    + simpl. lia.
Qed.

End Dispatching.

Section Waiting.
Context `{Codec} `{IntrospectLib}.

Lemma RunLoop_turn_eof (p : Connection) (w : World) :
  incoming (conn p) = [] ->
  is_Some (snd (_Unmarshal (buffer p))) ->
  _RunLoop_turn (p, w) = Done (p, w).
Proof.
  intros Hin [e He]. unfold _RunLoop_turn, _MessageReceiver_turn, _PopMessage.
  destruct (_Unmarshal (buffer p)) as [[msg n] e']. cbn in He. subst e'.
  by rewrite UpdateBuffer_eof.
Qed.

Lemma await_eof (fuel ch : nat) (p : Connection) (w : World) :
  incoming (conn p) = [] ->
  is_Some (snd (_Unmarshal (buffer p))) ->
  ch ∉ signalled w ->
  await fuel ch (p, w) = Blocked.
Proof.
  intros Hin He Hch. induction fuel as [|fuel IH]; rewrite await_unfold;
    rewrite decide_False by done; [done|].
  by rewrite RunLoop_turn_eof.
Qed.

(** X6. There is no timeout and no error at the end of the stream: when the
    socket has nothing more to deliver and the buffer holds no frame the
    codec decodes, a call sent through [_SendSync] is never released,
    whatever the number of turns of the background loop; the loop turns
    without changing anything. *)
Theorem SendSync_blocked_at_eof (fuel : nat) (msg : Message) (callback : Reply)
    (p : Connection) (w : World) :
  incoming (conn p) = [] ->
  is_Some (snd (_Unmarshal (buffer p))) ->
  fresh w ∉ signalled w ->
  _SendSync fuel msg callback (p, w) = Blocked
  /\ _RunLoop_turn (p, w) = Done (p, w).
Proof.
  intros Hin He Hch. split; [|by apply RunLoop_turn_eof].
  rewrite SendSync_result. unfold _SendSync_post. cbn [alloc].
  destruct (_Marshal msg) as [buff e]. cbn [conn_Write fst snd].
  rewrite await_eof; done.
Qed.



Lemma SendSync_post_world (msg : Message) (callback : Reply) (p : Connection) (w : World) :
  let s' := snd (_SendSync_post msg callback (p, w)) in
  snd s' = snd (alloc w)
  /\ writes (conn (fst s')) = (writes (conn p) ++ [fst (_Marshal msg)])%list
  /\ incoming (conn (fst s')) = incoming (conn p)
  /\ buffer (fst s') = buffer p /\ guid (fst s') = guid p.
Proof.
  unfold _SendSync_post. cbn [alloc]. by destruct (_Marshal msg) as [buff e].
Qed.



(** X8. The registry has one entry for a serial. A call sent under the
    32-bit serial of a call that is still outstanding, as happens for two
    serials that differ by a multiple of [2^32], takes the place of that
    call in the registry: a reply with this serial is given to the callback
    of the second call and signals the channel of the second call only,
    and then no entry is left for the serial, so nothing can release the
    first call. *)
Theorem SendSync_same_serial (m1 m2 : Message) (cb1 cb2 : Reply)
    (p : Connection) (w : World) :
  uint32 (serial m1) = uint32 (serial m2) ->
  let post1 := _SendSync_post m1 cb1 (p, w) in
  let post2 := _SendSync_post m2 cb2 (snd post1) in
  let k := uint32 (serial m2) in
  fst post1 = fresh w /\ fst post2 = S (fresh w)
  /\ methodCallReplies (fst (snd post2))
     = <[k := replyFunc_of cb2 (S (fresh w))]> (methodCallReplies p)
  /\ (forall reply w2 w3,
        Type_ reply = METHOD_RETURN -> replySerial reply = k ->
        cb2 reply (record_call k reply w2) = Some w3 ->
        exists p3,
          _MessageDispatch (Some reply) (fst (snd post2), w2)
          = Done (p3, signal (S (fresh w)) w3)
          /\ methodCallReplies p3 !! k = None).
Proof.
  intros Hk post1 post2 k.
  destruct (SendSync_post_registry m1 cb1 p w) as (Hr1 & _ & Hc1).
  destruct (SendSync_post_world m1 cb1 p w) as (Hw1 & _).
  fold post1 in Hr1, Hc1, Hw1.
  assert (post2 = _SendSync_post m2 cb2 (fst (snd post1), snd (snd post1))) as Hp2
    by (unfold post2; by destruct (snd post1)).
  destruct (SendSync_post_registry m2 cb2 (fst (snd post1)) (snd (snd post1)))
    as (Hr2 & _ & Hc2).
  rewrite <- Hp2 in Hr2, Hc2. rewrite Hw1 in Hr2, Hc2. cbn [alloc snd fresh] in Hr2, Hc2.
  assert (methodCallReplies (fst (snd post2))
          = <[k := replyFunc_of cb2 (S (fresh w))]> (methodCallReplies p)) as Hreg.
  { rewrite Hr2, Hr1, Hk. apply insert_insert_eq. }
  split_and!; try done.
  intros reply w2 w3 Ht Hrs Hcb. eexists. split.
  - apply (dispatch_registered reply (replyFunc_of cb2 (S (fresh w)))).
    + done.
    + by rewrite Hreg, Hrs, lookup_insert_eq.
    + unfold replyFunc_of. by rewrite Hrs, Hcb.
  - cbn. rewrite Hrs. apply lookup_delete_eq.
Qed.

(** While one call is outstanding whose callback always returns, the
    background loop and the wait never end in a fault. *)
Lemma await_no_fault (fuel : nat) (seri : Z) (cb : Reply) (ch : nat)
    (p : Connection) (w : World) :
  returning cb ->
  methodCallReplies p = {[seri := replyFunc_of cb ch]} ->
  await fuel ch (p, w) <> Panic.
Proof.
  intros Hret. revert p w. induction fuel as [|fuel IH]; intros p w Hreg;
    rewrite await_unfold; destruct (decide (ch ∈ signalled w)); try done.
  destruct (_RunLoop_turn (p, w)) as [[p1 w1]| |] eqn:Hturn;
    cbn [mbind Outcome_bind]; try done.
  - destruct (RunLoop_turn_single _ _ _ _ _ _ _ Hreg Hturn)
      as [[Hreg1 _]|(reply & w2 & _ & _ & _ & -> & _)].
    + by apply IH.
    + rewrite await_unfold. rewrite decide_True by (cbn; set_solver). done.
  - exfalso. revert Hturn. unfold _RunLoop_turn.
    pose proof (receiver_turn_registry p) as Hsame.
    destruct (_MessageReceiver_turn p) as [[[m|]|e1 e2] p1]; try done.
    cbn in Hsame. unfold _MessageDispatch.
    destruct (Type_ m); try done. cbv zeta. rewrite Hsame, Hreg.
    destruct (decide (replySerial m = seri)) as [->|Hne].
    + rewrite lookup_singleton_eq. unfold replyFunc_of.
      destruct (Hret m (record_call seri m w)) as [w2 ->]. done.
    + by rewrite lookup_singleton_ne.
Qed.

End Waiting.

Section Calling.
Context `{Codec} `{IntrospectLib}.


Lemma call_callback_returning (name : string) : returning (call_callback name).
Proof. intros m w. unfold call_callback. eauto. Qed.

Lemma CallMethod_found (fuel : nat) (intf : Interface) (name : string)
    (args : list (option Value)) (p : Connection) (w : World)
    (data : InterfaceData) (method : MethodData) (o : Object) :
  intf_intro intf = Some data ->
  GetMethodData data name = Some method ->
  intf_obj intf = Some o ->
  CallMethod fuel intf name args (p, w)
  = ('(_, s) ← _SendSync fuel (call_message intf o name method args w)
                 (call_callback name) (p, snd (NewMessage w));
     Done (None, s)).
Proof.
  intros Hi Hm Ho. unfold CallMethod. rewrite Hi, Hm.
  unfold call_message. destruct (NewMessage w) as [msg w1]. by rewrite Ho.
Qed.

(** X9. [Invalid Method] is the only error [CallMethod] returns, and it
    returns it exactly when the data of the interface has no method of the
    given name; it then has made no message, taken no serial, registered
    nothing and written nothing: the state is as it was. *)
Theorem CallMethod_error_iff (fuel : nat) (intf : Interface) (name : string)
    (args : list (option Value)) (s s' : State) (data : InterfaceData) (e : Error) :
  intf_intro intf = Some data ->
  CallMethod fuel intf name args s = Done (Some e, s')
  <-> GetMethodData data name = None /\ e = NewError "Invalid Method" /\ s' = s.
Proof.
  intros Hi. split.
  - destruct (GetMethodData data name) as [method|] eqn:Hm.
    + intros Hc. exfalso. revert Hc. unfold CallMethod. destruct s as [p w].
      rewrite Hi, Hm. destruct (NewMessage w) as [msg w1].
      destruct (intf_obj intf); [|done].
      destruct (_SendSync _ _ _ _) as [[r s1]| |]; cbn; intros Hd; by simplify_eq.
    + rewrite (CallMethod_invalid _ _ _ _ _ _ Hi Hm). intros Hd. by simplify_eq.
  - intros (Hm & -> & ->). by apply (CallMethod_invalid _ _ _ _ _ data).
Qed.


(** X11. An interface view that [Interface] returns is made for calling:
    it carries the object, the name asked for and the data found under
    that name, and a [CallMethod] on it, while no other call is
    outstanding, never ends in a runtime fault, whatever the method name,
    the arguments and the frames received. *)
Theorem Interface_CallMethod_no_fault (fuel : nat) (obj : option Object)
    (iname name : string) (intf : Interface) (args : list (option Value))
    (p : Connection) (w : World) :
  Connection_Interface obj iname = Some intf ->
  methodCallReplies p = ∅ ->
  CallMethod fuel intf name args (p, w) <> Panic
  /\ intf_obj intf = obj /\ intf_name intf = iname
  /\ exists o i data,
      obj = Some o /\ obj_intro o = Some i
      /\ GetInterfaceData i iname = Some data /\ intf_intro intf = Some data.
Proof.
  unfold Connection_Interface. destruct obj as [o|]; [|done].
  destruct (obj_intro o) as [i|] eqn:Hi; [|done].
  destruct (GetInterfaceData i iname) as [data|] eqn:Hd; [|done].
  intros Heq Hreg. simplify_eq. split_and!; try done; [|by exists o, i, data].
  destruct (GetMethodData data name) as [method|] eqn:Hm.
  - rewrite (CallMethod_found _ _ _ _ _ _ data method o); try done.
    rewrite SendSync_result.
    destruct (SendSync_post_registry
                (call_message (mkInterface (Some o) iname (Some data)) o name method args w)
                (call_callback name) p (snd (NewMessage w))) as (Hpost & _ & Hch).
    destruct (_SendSync_post _ _ _) as [ch [p1 w1]]. cbn [fst snd] in *.
    rewrite Hreg, insert_empty in Hpost. subst ch.
    pose proof (await_no_fault fuel _ _ _ p1 w1 (call_callback_returning name) Hpost).
    by destruct (await _ _ _).
  - by erewrite CallMethod_invalid.
Qed.

End Calling.

Lemma length_string_of_bytes (b : list byte) :
  String.length (string_of_bytes b) = List.length b.
Proof.
  unfold string_of_bytes, string_of_list_byte.
  induction b as [|x b IH]; simpl; [done|]. by rewrite IH.
Qed.

Section HandshakeMore.
Context `{Codec} `{IntrospectLib}.

Lemma response_length (c : Conn) : (String.length (response c) <= 1000)%nat.
Proof.
  unfold response. rewrite length_string_of_bytes.
  by destruct (conn_Read_stream 1000 c) as (_ & Hlen & _).
Qed.

(** X12. [_Auth] succeeds exactly on a response that matches, and what it
    stores is well formed: when it returns [nil], the response matches
    [OK <hex-guid>] and the stored guid is the guid of the response, not
    empty, made of hexadecimal digits only and at most 997 characters long;
    when it returns an error, the error is [Auth Failed], the response does
    not match and the guid of the connection is what it was. In both cases
    the buffer, the registry and the world outside the connection are
    untouched. *)
Theorem Auth_outcomes (p : Connection) (w : World) :
  let r := _Auth (p, w) in
  let p' := fst (snd r) in
  snd (snd r) = w /\ buffer p' = buffer p
  /\ methodCallReplies p' = methodCallReplies p
  /\ match fst r with
     | None =>
         OK_guid (response (conn p)) (guid p')
         /\ guid p' <> EmptyString
         /\ hex_run (guid p') = String.length (guid p')
         /\ (String.length (guid p') <= 997)%nat
     | Some e =>
         e = NewError "Auth Failed"
         /\ (forall g, ~ OK_guid (response (conn p)) g)
         /\ guid p' = guid p
     end.
Proof.
  cbv zeta. destruct (ExecuteString_OK (response (conn p))) as [m|] eqn:Hm.
  - destruct (ExecuteString_OK_some _ _ Hm) as [g Hg].
    destruct (Auth_matching p w g Hg) as (c & -> & _). cbn.
    split_and!; try done.
    + by destruct Hg as (rest & _ & Hne & _).
    + by destruct Hg as (rest & _ & _ & Hhex & _).
    + destruct Hg as (rest & Heq & _).
      pose proof (response_length (conn p)) as Hlen.
      rewrite Heq, !string_length_app in Hlen. simpl in Hlen. lia.
  - assert (forall g, ~ OK_guid (response (conn p)) g) as Hno.
    { intros g Hg. apply ExecuteString_OK_match in Hg as [Hg _]. congruence. }
    destruct (Auth_not_matching p w Hno) as (c & -> & _). by cbn.
Qed.

(** X13. [_Auth] takes the response from one read and keeps nothing of it
    but the guid: it removes from the stream the bytes of that one read, at
    most 1000, and leaves what follows them on the socket, in order;
    nothing of the read goes to the buffer, so bytes that came in the same
    read after the response line are lost to the frames. *)
Theorem Auth_consumes_one_read (p : Connection) (w : World) :
  let p' := fst (snd (_Auth (p, w))) in
  List.concat (incoming (conn p))
  = (Bytes (response (conn p)) ++ List.concat (incoming (conn p')))%list
  /\ (List.length (Bytes (response (conn p))) <= 1000)%nat
  /\ pending p' = (buffer p ++ List.concat (incoming (conn p')))%list
  /\ pending p = (buffer p ++ Bytes (response (conn p)) ++ List.concat (incoming (conn p')))%list.
Proof.
  cbv zeta.
  assert (incoming (conn (fst (snd (_Auth (p, w)))))
          = incoming (snd (conn_Read 1000 (conn p)))
          /\ buffer (fst (snd (_Auth (p, w)))) = buffer p) as [Hin Hbuf].
  { rewrite Auth_unfold. cbv zeta.
    assert (forall a b, incoming (snd (conn_Read 1000
              (mkConn (incoming (conn p)) a b)))
            = incoming (snd (conn_Read 1000 (conn p)))) as Hsame
      by (intros a b; unfold conn_Read; simpl;
          destruct (incoming (conn p)) eqn:Hi; simpl; by rewrite ?Hi).
    destruct (ExecuteString_OK (response (conn p))); cbn; by rewrite Hsame. }
  assert (Bytes (response (conn p)) = fst (fst (conn_Read 1000 (conn p)))) as Hresp
    by apply list_byte_of_string_of_list_byte.
  destruct (conn_Read_stream 1000 (conn p)) as (Hcat & Hlen & _).
  unfold pending. rewrite Hin, Hbuf, Hresp. split_and!; try done.
  by rewrite Hcat at 1.
Qed.

End HandshakeMore.

Section Starting.
Context `{Codec} `{IntrospectLib}.






End Starting.

Section Objects.
Context `{Codec} `{IntrospectLib}.



End Objects.

Section NoData.
Context `{Codec} `{IntrospectLib}.



Lemma same_but_stdout_unprint (l : list Printed) (w1 w2 : World) :
  same_but_stdout (print l w1) w2 -> same_but_stdout w1 w2.
Proof. unfold same_but_stdout. simpl. tauto. Qed.




End NoData.

(** * More runs on the fixture *)

Section MoreRuns.
#[local] Existing Instance Fixture.codec.
#[local] Existing Instance Fixture.introspectLib.

Lemma fixture_framing : framing.
Proof.
  split.
  - intros b msg n. simpl. unfold Fixture.unmarshal.
    destruct b as [|tag [|rs [|kind [|plen rest]]]];
      try (destruct (Fixture.type_of_tag _); discriminate); try discriminate.
    destruct (Fixture.type_of_tag tag); [|discriminate].
    destruct (Nat.leb_spec (Byte.to_nat plen) (List.length rest)); [|discriminate].
    intros Heq. injection Heq as _ <-. simpl. lia.
  - intros b more msg n. simpl. unfold Fixture.unmarshal.
    destruct b as [|tag [|rs [|kind [|plen rest]]]];
      try (destruct (Fixture.type_of_tag _); discriminate); try discriminate.
    cbn [app]. destruct (Fixture.type_of_tag tag); [|discriminate].
    destruct (Nat.leb_spec (Byte.to_nat plen) (List.length rest)) as [Hle|];
      [|discriminate].
    intros Heq. rewrite length_app.
    destruct (Nat.leb_spec (Byte.to_nat plen) (List.length rest + List.length more));
      [|lia].
    by rewrite take_app_le.
Qed.

Lemma receiver_chunking_witness :
  fst (receiver_run 30 connection_whole) = fst (receiver_run 30 connection_bytewise)
  /\ fst (receiver_run 30 connection_whole)
     = fst (frames_of (List.length (pending connection_whole)) (pending connection_whole))
  /\ buffer (snd (receiver_run 30 connection_whole))
     = buffer (snd (receiver_run 30 connection_bytewise))
  /\ buffer (snd (receiver_run 30 connection_whole))
     = snd (frames_of (List.length (pending connection_whole)) (pending connection_whole))
  /\ incoming (conn (snd (receiver_run 30 connection_whole))) = [].
Proof.
  apply (receiver_chunking 30 connection_whole connection_bytewise fixture_framing);
    [reflexivity|vm_compute; lia..].
Defined.


Lemma dispatch_unanswering_witness :
  dispatch_frames [error_for 7; signal_frame; return_for 8] (connection_waiting, world0)
  = Done (connection_waiting,
          print (List.concat (printed_for <$> [error_for 7; signal_frame; return_for 8]))
                world0)
  /\ _MessageDispatch None (connection_waiting, world0) = Done (connection_waiting, world0).
Proof.
  apply (dispatch_unanswering [error_for 7; signal_frame; return_for 8]
           connection_waiting world0).
  constructor; [left; discriminate|].
  constructor; [left; discriminate|].
  constructor; [right; reflexivity|constructor].
Defined.

Lemma dispatch_reverse_order_witness :
  exists w2,
    dispatch_frames [return_for 2; return_for 1] (connection_two_out, world0)
    = Done (set_methodCallReplies
              (delete 1 (delete 2 (methodCallReplies connection_two_out)))
              connection_two_out, w2)
    /\ delivered w2 = [(2, return_for 2); (1, return_for 1)].
Proof.
  eexists. split.
  - eapply (dispatch_reverse_order connection_two_out world0 _ _ 1 2
             hello_printer hello_printer (return_for 1) (return_for 2));
      try reflexivity. discriminate.
  - reflexivity.
Defined.

Lemma dispatch_registry_shrinks_witness :
  exists p' w',
    dispatch_frames [return_for 7; error_for 7] (connection_waiting, world0)
    = Done (p', w')
    /\ methodCallReplies p' ⊆ methodCallReplies connection_waiting
    /\ (size (methodCallReplies connection_waiting)
        <= size (methodCallReplies p') + 2)%nat
    /\ conn p' = conn connection_waiting /\ buffer p' = buffer connection_waiting
    /\ guid p' = guid connection_waiting.
Proof.
  eexists _, _. split; [reflexivity|].
  eapply (dispatch_registry_shrinks [return_for 7; error_for 7] connection_waiting
            _ world0).
  reflexivity.
Defined.

Lemma SendSync_blocked_at_eof_witness :
  _SendSync 50 call_one hello_printer (connection_partial, world0) = Blocked
  /\ _RunLoop_turn (connection_partial, world0) = Done (connection_partial, world0).
Proof.
  apply (SendSync_blocked_at_eof 50 call_one hello_printer connection_partial world0).
  - reflexivity.
  - simpl. eauto.
  - simpl. set_solver.
Defined.



Lemma SendSync_same_serial_witness :
  let post1 := _SendSync_post call_five hello_printer (connection0 [], world0) in
  let post2 := _SendSync_post call_five_wrapped (call_callback "Ping") (snd post1) in
  fst post1 = 0%nat /\ fst post2 = 1%nat
  /\ methodCallReplies (fst (snd post2))
     = <[5 := replyFunc_of (call_callback "Ping") 1%nat]> ∅.
Proof.
  destruct (SendSync_same_serial call_five call_five_wrapped hello_printer
              (call_callback "Ping") (connection0 []) world0 eq_refl)
    as (H1 & H2 & H3 & _).
  split_and!; [exact H1|exact H2|exact H3].
Defined.

Lemma CallMethod_error_iff_witness :
  CallMethod 2 interface_echo "Pong" [Some (VString "hi")] (connection0 [], world0)
  = Done (Some (NewError "Invalid Method"), (connection0 [], world0)).
Proof.
  apply (CallMethod_error_iff 2 interface_echo "Pong" [Some (VString "hi")]
           (connection0 [], world0) (connection0 [], world0) [("Ping", "s")]
           (NewError "Invalid Method") eq_refl).
  split_and!; reflexivity.
Defined.


Lemma Interface_CallMethod_no_fault_witness :
  CallMethod 2 interface_echo "Ping" [] (connection0 [reply_number], world0) <> Panic
  /\ intf_obj interface_echo = Some object_unnamed
  /\ intf_name interface_echo = "com.example.Echo".
Proof.
  destruct (Interface_CallMethod_no_fault 2 (Some object_unnamed) "com.example.Echo"
              "Ping" interface_echo [] (connection0 [reply_number]) world0
              eq_refl eq_refl) as (Hno & Ho & Hn & _).
  split_and!; [exact Hno|exact Ho|exact Hn].
Defined.


(** The same peer when the loop takes two turns before the Hello call is
    registered: the reply is decoded and dropped, and [Initialize] waits
    at the end of the stream. *)
Lemma Initialize_early_reply_dropped :
  Initialize_from 2 50 (connection0 [Bytes rejected_line; reply_empty], world0)
  = Blocked.
Proof. reflexivity. Qed.

Lemma Auth_outcomes_witness :
  snd (snd (_Auth (connection0 [Bytes rejected_line], world0))) = world0
  /\ fst (_Auth (connection0 [Bytes rejected_line], world0))
     = Some (NewError "Auth Failed").
Proof.
  split.
  - apply (Auth_outcomes (connection0 [Bytes rejected_line]) world0).
  - reflexivity.
Defined.




End MoreRuns.
